(** * asciidraw: a shallow embedding of [asciidraw.c]

    The interpreter keeps one canvas ([struct Grid]) and evaluates one
    parsed operation at a time.  The embedding follows the C source
    function by function:

    - [int] values are integers of [Z] normalised by [Int.wrap] after
      every arithmetic operation (32-bit two's complement; where C leaves
      signed overflow undefined the model wraps around);
    - [char **state] is modelled with the storage it points to: the
      number of entries of the table of row pointers, the row pointers
      that have been assigned, each with the size of its block, and the
      bytes written, as a finite map from index pairs [(i, j)].  A write
      through a row pointer that was never assigned writes nothing and is
      recorded as [Wild]; an access past the end of a block is made by
      index and recorded as [Overrun];
    - [printf] appends to a string, the text written to standard output;
    - the two rasterizer loops whose exit depends on run-time values take
      a fuel argument and return [None] when it runs out; the counted
      loops [for (i = 0; i < n; ++i)] are folds over [0 .. n-1];
    - reading a line and splitting it into tokens ([read], [parse]) is
      left out: an [Operation] is what [parse] hands to [load]. *)

From Stdlib Require Import ZArith Lia Ascii String.
From stdpp Require Import base option list strings pretty gmap.

Local Open Scope Z_scope.

(** ** Machine integers *)

Module Int.

Definition int_min : Z := - 2 ^ 31.
Definition int_max : Z := 2 ^ 31 - 1.

(** The representative of [z] modulo [2^32] in [int_min .. int_max]. *)
Definition wrap (z : Z) : Z := (z + 2 ^ 31) mod 2 ^ 32 - 2 ^ 31.

Definition add (a b : Z) : Z := wrap (a + b).
Definition sub (a b : Z) : Z := wrap (a - b).
Definition mul (a b : Z) : Z := wrap (a * b).

(** [abs] of <stdlib.h>; [abs INT_MIN] wraps to [INT_MIN]. *)
Definition abs (a : Z) : Z := wrap (Z.abs a).

(** The C remainder [%] truncates towards zero. *)
Definition rem (a b : Z) : Z := Z.rem a b.

Definition is_int (z : Z) : Prop := int_min <= z <= int_max.

End Int.

Import Int.

(** ** Commands *)

Inductive Command : Set :=
| CHAR | CIRCLE | CLEAR | DISPLAY | END | GRID | INVALID | LINE | POINT
| RECTANGLE.

#[global] Instance Command_eq_dec : EqDecision Command.
Proof. solve_decision. Defined.

Definition COMMAND_STRING : list (Command * string) :=
  [ (CHAR, "CHAR"); (CIRCLE, "CIRCLE"); (CLEAR, "CLEAR");
    (DISPLAY, "DISPLAY"); (END, "END"); (GRID, "GRID"); (LINE, "LINE");
    (POINT, "POINT"); (RECTANGLE, "RECTANGLE") ]%string.

(** The scan of [command_from_string]: the first entry whose string
    compares equal ([strcmp] returns 0) decides. *)
Fixpoint command_scan (table : list (Command * string)) (str : string)
  : Command :=
  match table with
  | [] => INVALID
  | (c, s) :: rest =>
      if String.eqb str s then c else command_scan rest str
  end.

Definition command_from_string (str : string) : Command :=
  command_scan COMMAND_STRING str.

(** [int args[ARGS_MAX]] with [ARGS_MAX = 4]. *)
Record Args : Set := mkArgs { arg0 : Z; arg1 : Z; arg2 : Z; arg3 : Z }.

Record Operation : Set := mkOperation {
  op_name : string;
  op_cmd : Command;
  op_args : Args
}.

(** ** The canvas *)

(** How the accesses to [state] made so far lie in the storage obtained
    from [malloc]: all inside a block; some past the end of a block, where
    C gives the run no meaning and the model goes on by index; or some
    through a row pointer that was never assigned, where there is no
    location to access. *)
Inductive Access : Set := Inside | Overrun | Wild.

Definition worst (a b : Access) : Access :=
  match a, b with
  | Wild, _ | _, Wild => Wild
  | Overrun, _ | _, Overrun => Overrun
  | Inside, Inside => Inside
  end.

(** [struct Grid]; the fields carry the prefix [grid_] because the source
    uses [character] and (in [grid]) [width] and [height] for other things
    as well.  The pointer [state] is three fields: [grid_table], the
    number of entries of the table it points to (0 for the null pointer);
    [grid_rows], the entries [state[i]] that have been assigned, with the
    size of the block each points to; [grid_state], the bytes
    [state[i][j]] written.  [grid_access] is no field of the C struct. *)
Record Grid : Type := mkGrid {
  grid_table : Z;
  grid_rows : gmap Z Z;
  grid_state : gmap (Z * Z) ascii;
  grid_character : ascii;
  grid_width : Z;
  grid_height : Z;
  grid_initialized : Z;
  grid_access : Access
}.

Definition in_bounds (g : Grid) (x y : Z) : bool :=
  (x >=? 0) && (x <? grid_width g) && (y >=? 0) && (y <? grid_height g).

(** Whether [k] is an index of a block of [size] elements. *)
Definition within (k size : Z) : Access :=
  if (0 <=? k) && (k <? size) then Inside else Overrun.

(** [grid->state[i] = malloc(size)]: entry [i] of the table is assigned a
    block of [size] bytes. *)
Definition set_row (g : Grid) (i size : Z) : Grid :=
  {| grid_table := grid_table g;
     grid_rows := <[i := size]> (grid_rows g);
     grid_state := grid_state g;
     grid_character := grid_character g;
     grid_width := grid_width g;
     grid_height := grid_height g;
     grid_initialized := grid_initialized g;
     grid_access := worst (grid_access g) (within i (grid_table g)) |}.

(** [grid->state[i][j] = c]: the byte is written when [state[i]] has been
    assigned. *)
Definition store (g : Grid) (i j : Z) (c : ascii) : Grid :=
  match grid_rows g !! i with
  | Some size =>
      {| grid_table := grid_table g;
         grid_rows := grid_rows g;
         grid_state := <[(i, j) := c]> (grid_state g);
         grid_character := grid_character g;
         grid_width := grid_width g;
         grid_height := grid_height g;
         grid_initialized := grid_initialized g;
         grid_access := worst (grid_access g) (within j size) |}
  | None =>
      {| grid_table := grid_table g;
         grid_rows := grid_rows g;
         grid_state := grid_state g;
         grid_character := grid_character g;
         grid_width := grid_width g;
         grid_height := grid_height g;
         grid_initialized := grid_initialized g;
         grid_access := Wild |}
  end.

(** [grid.state[i][j]] as an rvalue, read by index; the model reads a
    location that was never written as the NUL byte.  On the canvas
    [grid] creates every location [display] reads has been written. *)
Definition fetch (g : Grid) (i j : Z) : ascii :=
  default "000"%char (grid_state g !! (i, j)).

Definition plot (g : Grid) (x y : Z) : Grid :=
  if negb (in_bounds g x y) then g
  else store g x y (grid_character g).

(** [for (int i = 0; i < n; ++i) body]: [i] runs over [0 .. n-1]. *)
Definition for_upto {St : Type} (n : Z) (body : Z -> St -> St) (s : St)
  : St :=
  foldl (fun acc i => body i acc) s (seqZ 0 n).

(** ** The rasterizers, over any plotting primitive *)

Section Rasterizer.

Context {St : Type}.
Variable plot : St -> Z -> Z -> St.

(** The loop of [bresenham_line]; [i], [x1], [y1] and [pk] are the
    locals the loop updates. *)
Fixpoint bresenham_line_loop (fuel : nat) (s : St)
    (i x1 y1 pk x2 y2 dx dy decide : Z) : option St :=
  match fuel with
  | O => None
  | S fuel' =>
      if i <=? dx then
        let x1 := if x1 <? x2 then add x1 1 else sub x1 1 in
        if pk <? 0 then
          let s := if decide =? 0 then plot s x1 y1 else plot s y1 x1 in
          bresenham_line_loop fuel' s (add i 1) x1 y1
            (add pk (mul 2 dy)) x2 y2 dx dy decide
        else
          let y1 := if y1 <? y2 then add y1 1 else sub y1 1 in
          let s := if decide =? 0 then plot s x1 y1 else plot s y1 x1 in
          bresenham_line_loop fuel' s (add i 1) x1 y1
            (sub (add pk (mul 2 dy)) (mul 2 dx)) x2 y2 dx dy decide
      else Some s
  end.

Definition bresenham_line (fuel : nat) (s : St)
    (x1 y1 x2 y2 dx dy decide : Z) : option St :=
  bresenham_line_loop fuel s 0 x1 y1 (sub (mul 2 dy) dx)
    x2 y2 dx dy decide.

(** The eight [plot] calls that [bresenham_circle] makes before its
    loop and again at the end of every iteration, in source order. *)
Definition plot8 (s : St) (xc yc x y : Z) : St :=
  let s := plot s (add xc x) (add yc y) in
  let s := plot s (sub xc x) (add yc y) in
  let s := plot s (add xc x) (sub yc y) in
  let s := plot s (sub xc x) (sub yc y) in
  let s := plot s (add xc y) (add yc x) in
  let s := plot s (sub xc y) (add yc x) in
  let s := plot s (add xc y) (sub yc x) in
  plot s (sub xc y) (sub yc x).

Fixpoint bresenham_circle_loop (fuel : nat) (s : St)
    (xc yc x y d : Z) : option St :=
  match fuel with
  | O => None
  | S fuel' =>
      if y >=? x then
        let x := add x 1 in
        if d >? 0 then
          let y := sub y 1 in
          let d := add (add d (mul 4 (sub x y))) 10 in
          bresenham_circle_loop fuel' (plot8 s xc yc x y) xc yc x y d
        else
          let d := add (add d (mul 4 x)) 6 in
          bresenham_circle_loop fuel' (plot8 s xc yc x y) xc yc x y d
      else Some s
  end.

Definition bresenham_circle (fuel : nat) (s : St) (xc yc radius : Z)
  : option St :=
  bresenham_circle_loop fuel (plot8 s xc yc 0 radius) xc yc
    0 radius (sub 3 (mul 2 radius)).

End Rasterizer.

(** The plotting primitive that records its arguments instead of writing
    a cell: run on it, a rasterizer returns the positions it plots, in
    the order of the calls. *)
Definition record_plot (tr : list (Z * Z)) (x y : Z) : list (Z * Z) :=
  tr ++ [(x, y)].

(** Applying a plotting primitive to recorded positions, in order. *)
Definition replay {St : Type} (draw : St -> Z -> Z -> St) (s : St)
    (tr : list (Z * Z)) : St :=
  foldl (fun acc p => draw acc p.1 p.2) s tr.

(** ** Handlers *)

Definition nl : string := String "010"%char EmptyString.

Definition not_initialized_msg : string :=
  "error: Grid isn't initialized" +:+ nl.

Definition already_initialized_msg : string :=
  "error: Grid has already been initialized" +:+ nl.

(** [(char)args[0]]: the low eight bits. *)
Definition char_of_int (z : Z) : ascii :=
  Ascii.ascii_of_N (Z.to_N (z mod 256)).

Definition character (g : Grid) (args : Args) : Grid :=
  {| grid_table := grid_table g;
     grid_rows := grid_rows g;
     grid_state := grid_state g;
     grid_character := char_of_int (arg0 args);
     grid_width := grid_width g;
     grid_height := grid_height g;
     grid_initialized := grid_initialized g;
     grid_access := grid_access g |}.

Definition circle (fuel : nat) (g : Grid) (args : Args)
  : option (Grid * string) :=
  let x := arg0 args in
  let y := arg1 args in
  let radius := arg2 args in
  if grid_initialized g =? 0 then Some (g, not_initialized_msg)
  else g' ← bresenham_circle plot fuel g x y radius; Some (g', ""%string).

Definition clear (g : Grid) : Grid :=
  for_upto (grid_height g) (fun i g =>
    for_upto (grid_width g) (fun j g => store g i j " "%char) g) g.

Definition ruler (i : Z) : Z := rem (add (rem (sub 9 i) 10) 10) 10.

Definition display (g : Grid) : string :=
  if grid_initialized g =? 0 then not_initialized_msg
  else
    let out :=
      for_upto (grid_width g) (fun i out =>
        let out := out +:+ pretty (ruler i) +:+ " " in
        let out :=
          for_upto (grid_height g) (fun j out =>
            out +:+ String (fetch g j i) EmptyString) out in
        out +:+ nl) ""%string in
    let out := out +:+ " " in
    let out :=
      for_upto (grid_width g) (fun i out => out +:+ pretty (ruler i)) out in
    out +:+ nl.

Definition grid (g : Grid) (args : Args) : Grid * string :=
  let width := arg0 args in
  let height := arg1 args in
  if negb (grid_initialized g =? 0) then (g, already_initialized_msg)
  else
    (* the first [malloc], taken to succeed: a table of [width] row
       pointers, none of them assigned, nothing written *)
    let g := {| grid_table := width;
                grid_rows := ∅;
                grid_state := ∅;
                grid_character := grid_character g;
                grid_width := grid_width g;
                grid_height := grid_height g;
                grid_initialized := grid_initialized g;
                grid_access := grid_access g |} in
    (* [height] row pointers, each to a block of [height] bytes *)
    let g := for_upto height (fun i g => set_row g i height) g in
    (* [height] rows of [width] spaces *)
    let g :=
      for_upto height (fun i g =>
        for_upto width (fun j g => store g i j " "%char) g) g in
    ({| grid_table := grid_table g;
        grid_rows := grid_rows g;
        grid_state := grid_state g;
        grid_character := grid_character g;
        grid_width := width;
        grid_height := height;
        grid_initialized := 1;
        grid_access := grid_access g |}, ""%string).

Definition line (fuel : nat) (g : Grid) (args : Args)
  : option (Grid * string) :=
  let x1 := arg0 args in
  let y1 := arg1 args in
  let x2 := arg2 args in
  let y2 := arg3 args in
  if grid_initialized g =? 0 then Some (g, not_initialized_msg)
  else
    let g := plot g x1 y1 in
    let dx := abs (sub x2 x1) in
    let dy := abs (sub y2 y1) in
    g' ← (if dx >? dy
          then bresenham_line plot fuel g x1 y1 x2 y2 dx dy 0
          else bresenham_line plot fuel g y1 x1 y2 x2 dy dx 1);
    Some (g', ""%string).

Definition point (g : Grid) (args : Args) : Grid * string :=
  let x := arg0 args in
  let y := arg1 args in
  if grid_initialized g =? 0 then (g, not_initialized_msg)
  else (plot g x y, ""%string).

(** [rectangle], over any canvas type and any [line]: the body of the
    handler with its test of [grid->initialized] and its four calls. *)
Section Rectangle.

Context {St : Type}.
Variable initialized_of : St -> Z.
Variable call_line : St -> Args -> option (St * string).

(** Sequencing of two calls: the second runs on the canvas the first
    left, and the texts they print are concatenated. *)
Definition and_then (r : option (St * string))
    (k : St -> option (St * string)) : option (St * string) :=
  '(s, out1) ← r; '(s', out2) ← k s; Some (s', out1 +:+ out2).

Definition rectangle_over (s : St) (args : Args) : option (St * string) :=
  let x1 := arg0 args in
  let y1 := arg1 args in
  let x2 := arg2 args in
  let y2 := arg3 args in
  if initialized_of s =? 0 then Some (s, not_initialized_msg)
  else
    and_then (call_line s (mkArgs x1 y1 (add x1 (abs (sub x2 x1))) y1))
      (fun s =>
    and_then (call_line s (mkArgs (add x1 (abs (sub x2 x1))) y1 x2 y2))
      (fun s =>
    and_then (call_line s (mkArgs x2 y2 x1 (add y1 (abs (sub y2 y1)))))
      (fun s =>
    call_line s (mkArgs x1 (add y1 (abs (sub y2 y1))) x1 y1)))).

End Rectangle.

Definition rectangle (fuel : nat) (g : Grid) (args : Args)
  : option (Grid * string) :=
  rectangle_over grid_initialized (line fuel) g args.

(** A canvas together with the calls of [line] made on the way to it:
    for each call, the canvas it was made on and its arguments. *)
Definition Logged : Type := Grid * list (Grid * Args).

(** [line] that also records the call. *)
Definition logged_line (fuel : nat) (s : Logged) (args : Args)
  : option (Logged * string) :=
  '(g', out) ← line fuel s.1 args; Some ((g', s.2 ++ [(s.1, args)]), out).

(** The calls of [line] that [rectangle] makes on the canvas [g], in the
    order it makes them. *)
Definition rectangle_calls (fuel : nat) (g : Grid) (args : Args)
  : option (list (Grid * Args)) :=
  r ← rectangle_over (fun s : Logged => grid_initialized s.1)
         (logged_line fuel) (g, []) args;
  Some r.1.2.

(** ** The interpreter *)

Record Interpreter : Type := mkInterpreter {
  interp_grid : Grid;
  interp_op : Operation
}.

Definition load (i : Interpreter) (op : Operation) : Interpreter :=
  {| interp_grid := interp_grid i; interp_op := op |}.

(** What one call of [eval] does: it returns, leaving an interpreter and
    some text on standard output, or it ends the process ([exit]). *)
Inductive Outcome : Type :=
| Returned (i : Interpreter) (out : string)
| Exited (status : Z).

Definition with_grid (i : Interpreter) (r : Grid * string) : Outcome :=
  Returned {| interp_grid := r.1; interp_op := interp_op i |} r.2.

Definition invalid_command_msg (name : string) : string :=
  "error: Invalid command `" +:+ name +:+ "`" +:+ nl.

Definition eval (fuel : nat) (i : Interpreter) : option Outcome :=
  let g := interp_grid i in
  let args := op_args (interp_op i) in
  match op_cmd (interp_op i) with
  | CHAR => Some (with_grid i (character g args, ""%string))
  | CIRCLE => with_grid i <$> circle fuel g args
  | CLEAR => Some (with_grid i (clear g, ""%string))
  | DISPLAY => Some (with_grid i (g, display g))
  | END => Some (Exited 0)
  | GRID => Some (with_grid i (grid g args))
  | INVALID =>
      Some (with_grid i (g, invalid_command_msg (op_name (interp_op i))))
  | LINE => with_grid i <$> line fuel g args
  | POINT => Some (with_grid i (point g args))
  | RECTANGLE => with_grid i <$> rectangle fuel g args
  end.

(** The interpreter [main] starts from: draw character ['*'], every other
    field of the canvas zero. *)
Definition initial_grid : Grid :=
  {| grid_table := 0;
     grid_rows := ∅;
     grid_state := ∅;
     grid_character := "*"%char;
     grid_width := 0;
     grid_height := 0;
     grid_initialized := 0;
     grid_access := Inside |}.

(** The positions the [LINE] handler passes to [plot]: the start point,
    then the calls of the rasterizer loop. *)
Definition line_points (fuel : nat) (x1 y1 x2 y2 : Z)
  : option (list (Z * Z)) :=
  let tr := record_plot [] x1 y1 in
  let dx := abs (sub x2 x1) in
  let dy := abs (sub y2 y1) in
  if dx >? dy
  then bresenham_line record_plot fuel tr x1 y1 x2 y2 dx dy 0
  else bresenham_line record_plot fuel tr y1 x1 y2 x2 dy dx 1.

(** The positions the [CIRCLE] handler passes to [plot]. *)
Definition circle_points (fuel : nat) (xc yc radius : Z)
  : option (list (Z * Z)) :=
  bresenham_circle record_plot fuel [] xc yc radius.

(** What the drawing handlers may not touch. *)
Definition same_frame (g g' : Grid) : Prop :=
  grid_width g' = grid_width g ∧
  grid_height g' = grid_height g ∧
  grid_character g' = grid_character g ∧
  grid_initialized g' = grid_initialized g.

(** The eight positions of one [plot8] round, for the offsets [(x, y)]
    from the center [(xc, yc)]. *)
Definition reflections (xc yc x y : Z) : list (Z * Z) :=
  [ (add xc x, add yc y); (sub xc x, add yc y);
    (add xc x, sub yc y); (sub xc x, sub yc y);
    (add xc y, add yc x); (sub xc y, add yc x);
    (add xc y, sub yc x); (sub xc y, sub yc x) ].

(** A set of positions closed under the eight reflections about the
    center: with the position at offsets [(x, y)] it holds the ones at
    [(±x, ±y)] and [(±y, ±x)]. *)
Definition symmetric_about (xc yc : Z) (tr : list (Z * Z)) : Prop :=
  ∀ x y, (add xc x, add yc y) ∈ tr →
    ∀ p, p ∈ reflections xc yc x y → p ∈ tr.

(** A list of positions made of whole [plot8] rounds. *)
Definition in_rounds (xc yc : Z) (tr : list (Z * Z)) : Prop :=
  ∀ p, p ∈ tr →
    ∃ a b, p ∈ reflections xc yc a b ∧
           ∀ q, q ∈ reflections xc yc a b → q ∈ tr.

(** ** Canvases and operations used in the examples *)

(** The canvas after [GRID w,h] as the first command. *)
Definition canvas (w h : Z) : Grid := (grid initial_grid (mkArgs w h 0 0)).1.

Definition operation_of (name : string) (args : Args) : Operation :=
  {| op_name := name; op_cmd := command_from_string name; op_args := args |}.

Definition no_args : Args := mkArgs 0 0 0 0.

(** The cells of the canvas that hold something else than a space. *)
Definition drawn (g : Grid) : gmap (Z * Z) ascii :=
  filter (fun kv => kv.2 ≠ " "%char) (grid_state g).

(** Concatenation of the pieces of text printed one after the other. *)
Fixpoint join (pieces : list string) : string :=
  match pieces with
  | [] => ""%string
  | s :: rest => s +:+ join rest
  end.

(** The text [display] prints for the outer index [i]: the ruler digit, a
    space, the cells [state[0][i] .. state[height-1][i]] and a newline. *)
Definition display_row (g : Grid) (i : Z) : string :=
  pretty (ruler i) +:+ " " +:+
  join ((fun j => String (fetch g j i) EmptyString) <$> seqZ 0 (grid_height g))
  +:+ nl.

(** The position the line loop plots for the driving coordinate [a] and
    the other coordinate [b], and the driving coordinate of a position. *)
Definition place (decide a b : Z) : Z * Z :=
  if decide =? 0 then (a, b) else (b, a).

Definition driving (decide : Z) (p : Z * Z) : Z :=
  if decide =? 0 then p.1 else p.2.

(** The step the loop takes on a coordinate that has not reached [b]. *)
Definition direction (a b : Z) : Z := if a <? b then 1 else -1.

(** The state of the line loop before iteration [i], for a line from
    [(X1, Y1)] to [(X2, Y2)] in driving/other coordinates: [x] has made
    [i] steps, [y] has made [j] steps, and [pk] is the error term of
    Bresenham's algorithm. *)
Definition line_state (X1 Y1 X2 Y2 dx dy i x y pk : Z) : Prop :=
  ∃ j, 0 <= i <= dx ∧ 0 <= j <= dy ∧
       x = X1 + direction X1 X2 * i ∧
       y = Y1 + direction Y1 Y2 * j ∧
       - dx <= 2 * dy * i - 2 * dx * j <= dx ∧
       pk = 2 * dy * i - 2 * dx * j + 2 * dy - dx.

(** ** Machine integers: facts *)

Module IntFacts.

Lemma wrap_range z : is_int (wrap z).
Proof.
  unfold is_int, wrap, int_min, int_max.
  pose proof (Z.mod_pos_bound (z + 2 ^ 31) (2 ^ 32) ltac:(lia)). lia.
Qed.

Lemma wrap_id z : is_int z → wrap z = z.
Proof.
  unfold is_int, wrap, int_min, int_max. intros Hz.
  rewrite Z.mod_small by lia. lia.
Qed.

Lemma wrap_congr a b : a mod 2 ^ 32 = b mod 2 ^ 32 → wrap a = wrap b.
Proof.
  intros Hab. unfold wrap. f_equal.
  rewrite (Z.add_mod a), (Z.add_mod b) by lia. by rewrite Hab.
Qed.

Lemma wrap_mod z : wrap z mod 2 ^ 32 = z mod 2 ^ 32.
Proof.
  unfold wrap.
  rewrite <- Zminus_mod_idemp_l, Z.mod_mod by lia.
  rewrite Zminus_mod_idemp_l. f_equal. lia.
Qed.

Lemma wrap_inv a b : wrap a = wrap b → a mod 2 ^ 32 = b mod 2 ^ 32.
Proof.
  intros Hab. rewrite <- (wrap_mod a), <- (wrap_mod b). by rewrite Hab.
Qed.

Lemma add_small a b : is_int (a + b) → add a b = a + b.
Proof. apply wrap_id. Qed.

Lemma sub_small a b : is_int (a - b) → sub a b = a - b.
Proof. apply wrap_id. Qed.

Lemma mul_small a b : is_int (a * b) → mul a b = a * b.
Proof. apply wrap_id. Qed.

Lemma abs_small a : is_int (Z.abs a) → abs a = Z.abs a.
Proof. apply wrap_id. Qed.

End IntFacts.

Import IntFacts.

(** ** The plotting primitive *)

Lemma in_bounds_spec g x y :
  in_bounds g x y = true ↔ 0 <= x < grid_width g ∧ 0 <= y < grid_height g.
Proof. unfold in_bounds. rewrite !andb_true_iff. lia. Qed.

Lemma plot_inside g x y :
  in_bounds g x y = true → plot g x y = store g x y (grid_character g).
Proof. intros H. unfold plot. by rewrite H. Qed.

Lemma plot_outside g x y : in_bounds g x y = false → plot g x y = g.
Proof. intros H. unfold plot. by rewrite H. Qed.

Lemma store_same_frame g i j c : same_frame g (store g i j c).
Proof. unfold store. by destruct (grid_rows g !! i). Qed.

Lemma store_rows g i j c : grid_rows (store g i j c) = grid_rows g.
Proof. unfold store. by destruct (grid_rows g !! i). Qed.

Lemma plot_same_frame g x y : same_frame g (plot g x y).
Proof.
  unfold plot. destruct (in_bounds g x y); [apply store_same_frame|done].
Qed.

Lemma same_frame_refl g : same_frame g g.
Proof. done. Qed.

Lemma same_frame_trans g1 g2 g3 :
  same_frame g1 g2 → same_frame g2 g3 → same_frame g1 g3.
Proof. unfold same_frame. intros (-> & -> & -> & ->) (-> & -> & -> & ->). done. Qed.

(** Where the row pointer [state[x]] has been assigned, [plot] at a
    position inside the bounds writes the draw character there and changes
    no other cell. *)
Lemma plot_with_row g x y size :
  in_bounds g x y = true → grid_rows g !! x = Some size →
  grid_state (plot g x y) !! (x, y) = Some (grid_character g) ∧
  (∀ i j, (i, j) ≠ (x, y) →
     grid_state (plot g x y) !! (i, j) = grid_state g !! (i, j)) ∧
  grid_access (plot g x y) = worst (grid_access g) (within y size).
Proof.
  intros Hin Hrow. rewrite (plot_inside _ _ _ Hin). unfold store.
  rewrite Hrow. simpl. split_and!.
  - apply lookup_insert_eq.
  - intros i j Hne. by apply lookup_insert_ne.
  - done.
Qed.

(** Where it has not, [plot] at a position inside the bounds goes through
    a pointer that was never set. *)
Lemma plot_no_row g x y :
  in_bounds g x y = true → grid_rows g !! x = None →
  grid_state (plot g x y) = grid_state g ∧ grid_access (plot g x y) = Wild.
Proof.
  intros Hin Hrow. rewrite (plot_inside _ _ _ Hin). unfold store.
  by rewrite Hrow.
Qed.

(** At a position outside the bounds [plot] returns the canvas as it was,
    and [POINT] on an initialized canvas is one [plot] call that prints
    nothing. *)
Lemma plot_clipped g x y :
  ¬ (0 <= x < grid_width g ∧ 0 <= y < grid_height g) → plot g x y = g.
Proof.
  intros Hout. apply plot_outside.
  destruct (in_bounds g x y) eqn:E; [|done].
  by apply in_bounds_spec in E.
Qed.

Lemma point_plots g x y a2 a3 :
  grid_initialized g ≠ 0 →
  point g (mkArgs x y a2 a3) = (plot g x y, ""%string).
Proof.
  intros Hinit. unfold point. simpl.
  by destruct (Z.eqb_spec (grid_initialized g) 0).
Qed.

(** ** Grid creation *)

Lemma for_upto_nonpos {St} n (body : Z → St → St) s :
  n <= 0 → for_upto n body s = s.
Proof.
  intros Hn. unfold for_upto, seqZ.
  by replace (Z.to_nat n) with O by lia.
Qed.

Lemma grid_sets_initialized g args :
  grid_initialized g = 0 → grid_initialized (grid g args).1 = 1.
Proof. intros H. unfold grid. by rewrite H. Qed.

Lemma grid_rejects g args :
  grid_initialized g ≠ 0 → grid g args = (g, already_initialized_msg).
Proof.
  intros Hinit. unfold grid.
  by destruct (Z.eqb_spec (grid_initialized g) 0).
Qed.

(** C5.  Once the canvas is initialized, a [GRID] command with any
    arguments prints the line "error: Grid has already been initialized"
    and returns the canvas as it was: cells, width, height, draw character
    and initialized flag. *)
Theorem grid_twice_rejected (g : Grid) (args : Args) :
  grid_initialized g ≠ 0 →
  grid g args = (g, "error: Grid has already been initialized" +:+ nl).
Proof. apply grid_rejects. Qed.

Lemma grid_twice_rejected_witness :
  grid (canvas 5 5) (mkArgs 7 3 0 0)
  = (canvas 5 5, "error: Grid has already been initialized" +:+ nl).
Proof. apply (grid_twice_rejected (canvas 5 5) (mkArgs 7 3 0 0)). by vm_compute. Defined.

Lemma grid_after_grid g args1 args2 :
  grid_initialized g = 0 →
  grid (grid g args1).1 args2 = ((grid g args1).1, already_initialized_msg).
Proof.
  intros H. apply grid_rejects.
  by rewrite (grid_sets_initialized _ _ H).
Qed.

(** ** The command table and the dispatcher *)

Lemma command_scan_found table c s :
  NoDup table.*2 → (c, s) ∈ table → command_scan table s = c.
Proof.
  induction table as [|[c' s'] table IH]; simpl; intros Hnd Hin.
  - by apply elem_of_nil in Hin.
  - apply NoDup_cons in Hnd as [Hfresh Hnd].
    apply elem_of_cons in Hin as [Heq|Hin].
    + injection Heq as -> ->. by rewrite String.eqb_refl.
    + destruct (String.eqb_spec s s') as [->|_]; [|by apply IH].
      destruct Hfresh. apply (list_elem_of_fmap_2 snd _ (c, s') Hin).
  Qed.

Lemma command_scan_missing table s :
  (∀ c, (c, s) ∉ table) → command_scan table s = INVALID.
Proof.
  induction table as [|[c' s'] table IH]; simpl; intros Hout; [done|].
  destruct (String.eqb_spec s s') as [->|_].
  - destruct (Hout c'). apply elem_of_cons. by left.
  - apply IH. intros c Hin. apply (Hout c). apply elem_of_cons. by right.
Qed.

Lemma COMMAND_STRING_NoDup : NoDup COMMAND_STRING.*2.
Proof. apply (bool_decide_unpack _). by vm_compute. Qed.

Lemma with_grid_same i out : with_grid i (interp_grid i, out) = Returned i out.
Proof. by destruct i. Qed.

(** C7.  [command_from_string] is defined on every string: a name of the
    table maps to the kind listed with it, every other name maps to
    [INVALID]; evaluating an operation of kind [INVALID] prints the line
    "error: Invalid command `<name>`" with the name the operation carries
    and returns the interpreter, its canvas included, as it was. *)
Theorem invalid_command_total :
  (∀ c s, (c, s) ∈ COMMAND_STRING → command_from_string s = c) ∧
  (∀ s, (∀ c, (c, s) ∉ COMMAND_STRING) → command_from_string s = INVALID) ∧
  (∀ fuel i,
     op_cmd (interp_op i) = INVALID →
     eval fuel i
     = Some (Returned i ("error: Invalid command `"
                         +:+ op_name (interp_op i) +:+ "`" +:+ nl))).
Proof.
  split_and!.
  - intros c s. apply command_scan_found, COMMAND_STRING_NoDup.
  - intros s. apply command_scan_missing.
  - intros fuel i Hcmd. unfold eval. rewrite Hcmd.
    by rewrite with_grid_same.
Qed.

Lemma invalid_command_total_witness :
  command_from_string "LINE" = LINE ∧
  command_from_string "FOO" = INVALID ∧
  eval 0 (mkInterpreter (canvas 3 3) (operation_of "FOO" no_args))
  = Some (Returned (mkInterpreter (canvas 3 3) (operation_of "FOO" no_args))
            ("error: Invalid command `FOO`" +:+ nl)).
Proof.
  destruct invalid_command_total as (Hin & Hout & Heval). split_and!.
  - apply Hin. apply (bool_decide_unpack _). by vm_compute.
  - apply Hout. intros c. apply (bool_decide_unpack _).
    destruct c; by vm_compute.
  - apply (Heval 0%nat). by vm_compute.
Defined.

(** ** The rasterizers over any plotting primitive *)

Section RasterizerFacts.

Context {St : Type} (draw : St → Z → Z → St).

Local Abbreviation run := (replay draw).

Lemma run_record s tr x y : run s (record_plot tr x y) = draw (run s tr) x y.
Proof. unfold replay, record_plot. by rewrite foldl_app. Qed.

Lemma run_plot8 s tr xc yc x y :
  run s (plot8 record_plot tr xc yc x y) = plot8 draw (run s tr) xc yc x y.
Proof. unfold plot8. by rewrite !run_record. Qed.

(** Running a rasterizer on [draw] is running it on [record_plot] and
    applying [draw] to the recorded positions in order. *)
Lemma bresenham_line_loop_run fuel :
  ∀ s tr i x1 y1 pk x2 y2 dx dy decide,
    bresenham_line_loop draw fuel (run s tr) i x1 y1 pk x2 y2 dx dy decide
    = run s <$>
        bresenham_line_loop record_plot fuel tr i x1 y1 pk x2 y2 dx dy decide.
Proof.
  induction fuel as [|fuel IH]; intros; simpl; [done|].
  destruct (i <=? dx); [|done].
  destruct (pk <? 0); destruct (decide =? 0);
    rewrite <- IH, run_record; reflexivity.
Qed.

Lemma bresenham_circle_loop_run fuel :
  ∀ s tr xc yc x y d,
    bresenham_circle_loop draw fuel (run s tr) xc yc x y d
    = run s <$> bresenham_circle_loop record_plot fuel tr xc yc x y d.
Proof.
  induction fuel as [|fuel IH]; intros; simpl; [done|].
  destruct (y >=? x); [|done].
  destruct (d >? 0); rewrite <- IH, run_plot8; reflexivity.
Qed.

(** A property of the state that [draw] keeps is kept by both loops,
    however many iterations they make. *)
Variable keeps : St → Prop.
Hypothesis keeps_draw : ∀ s x y, keeps s → keeps (draw s x y).

Lemma plot8_keeps s xc yc x y : keeps s → keeps (plot8 draw s xc yc x y).
Proof. intros H. unfold plot8. by do 8 apply keeps_draw. Qed.

Lemma bresenham_line_loop_keeps fuel :
  ∀ s i x1 y1 pk x2 y2 dx dy decide s',
    keeps s →
    bresenham_line_loop draw fuel s i x1 y1 pk x2 y2 dx dy decide = Some s' →
    keeps s'.
Proof.
  induction fuel as [|fuel IH]; intros * Hs; simpl; [done|].
  destruct (i <=? dx); [|by intros [= <-]].
  destruct (pk <? 0); destruct (decide =? 0);
    apply IH; by apply keeps_draw.
Qed.

Lemma bresenham_circle_loop_keeps fuel :
  ∀ s xc yc x y d s',
    keeps s →
    bresenham_circle_loop draw fuel s xc yc x y d = Some s' →
    keeps s'.
Proof.
  induction fuel as [|fuel IH]; intros * Hs; simpl; [done|].
  destruct (y >=? x); [|by intros [= <-]].
  destruct (d >? 0); apply IH; by apply plot8_keeps.
Qed.

End RasterizerFacts.

(** *** Termination of the line loop *)

Section LineLoop.

Context {St : Type} (draw : St → Z → Z → St).

(** The counter below [INT_MAX]: the loop returns after [dx + 1 - i]
    more iterations. *)
Lemma bresenham_line_loop_returns fuel :
  ∀ s i x1 y1 pk x2 y2 dx dy decide,
    0 <= i → dx < int_max → (Z.to_nat (dx + 1 - i) < fuel)%nat →
    is_Some
      (bresenham_line_loop draw fuel s i x1 y1 pk x2 y2 dx dy decide).
Proof.
  induction fuel as [|fuel IH]; intros * Hi Hdx Hfuel; simpl; [lia|].
  destruct (Z.leb_spec i dx) as [Hle|_]; [|by eexists].
  assert (Hstep : add i 1 = i + 1).
  { apply add_small. unfold is_int, int_min, int_max in *. lia. }
  destruct (pk <? 0); rewrite Hstep; apply IH; lia.
Qed.

(** [dx = INT_MAX]: the test [i <= dx] holds for every [int], the loop
    never returns. *)
Lemma bresenham_line_loop_diverges fuel :
  ∀ s i x1 y1 pk x2 y2 dy decide,
    i <= int_max →
    bresenham_line_loop draw fuel s i x1 y1 pk x2 y2 int_max dy decide
    = None.
Proof.
  induction fuel as [|fuel IH]; intros * Hi; simpl; [done|].
  destruct (Z.leb_spec i int_max) as [_|Hgt]; [|lia].
  destruct (pk <? 0); apply IH; apply wrap_range.
Qed.

End LineLoop.

(** The loop makes one [plot] call per iteration. *)
Lemma bresenham_line_loop_calls fuel :
  ∀ tr i x1 y1 pk x2 y2 dx dy decide tr',
    0 <= i <= dx + 1 → dx < int_max →
    bresenham_line_loop record_plot fuel tr i x1 y1 pk x2 y2 dx dy decide
    = Some tr' →
    length tr' = (length tr + Z.to_nat (dx + 1 - i))%nat.
Proof.
  induction fuel as [|fuel IH]; intros * Hi Hdx; simpl; [done|].
  destruct (Z.leb_spec i dx) as [Hle|Hgt].
  - assert (Hstep : add i 1 = i + 1).
    { apply add_small. unfold is_int, int_min, int_max in *. lia. }
    rewrite Hstep.
    destruct (pk <? 0); destruct (decide =? 0); intros Hrun;
      apply IH in Hrun; try lia;
      rewrite Hrun; unfold record_plot; rewrite length_app; simpl; lia.
  - intros [= <-]. lia.
Qed.

(** ** The drawing handlers *)

Lemma line_replay fuel g args :
  grid_initialized g ≠ 0 →
  line fuel g args
  = (fun tr => (replay plot g tr, ""%string)) <$>
      line_points fuel (arg0 args) (arg1 args) (arg2 args) (arg3 args).
Proof.
  intros Hinit. unfold line, line_points, bresenham_line.
  destruct (Z.eqb_spec (grid_initialized g) 0) as [|_]; [done|].
  change (plot g (arg0 args) (arg1 args))
    with (replay plot g (record_plot [] (arg0 args) (arg1 args))).
  destruct (_ >? _); rewrite bresenham_line_loop_run;
    by destruct (bresenham_line_loop record_plot _ _ _ _ _ _ _ _ _ _ _).
Qed.

Lemma circle_replay fuel g args :
  grid_initialized g ≠ 0 →
  circle fuel g args
  = (fun tr => (replay plot g tr, ""%string)) <$>
      circle_points fuel (arg0 args) (arg1 args) (arg2 args).
Proof.
  intros Hinit. unfold circle, circle_points, bresenham_circle.
  destruct (Z.eqb_spec (grid_initialized g) 0) as [|_]; [done|].
  change (plot8 plot g (arg0 args) (arg1 args) 0 (arg2 args))
    with (plot8 plot (replay plot g []) (arg0 args) (arg1 args) 0 (arg2 args)).
  rewrite <- run_plot8, bresenham_circle_loop_run.
  by destruct (bresenham_circle_loop record_plot _ _ _ _ _ _ _).
Qed.

Lemma plot_keeps_frame g0 g x y : same_frame g0 g → same_frame g0 (plot g x y).
Proof. intros H. eapply same_frame_trans; [exact H|apply plot_same_frame]. Qed.

Lemma point_same_frame g args : same_frame g (point g args).1.
Proof.
  unfold point. destruct (_ =? _); simpl; [done|apply plot_same_frame].
Qed.

Lemma line_same_frame fuel g args g' out :
  line fuel g args = Some (g', out) → same_frame g g'.
Proof.
  unfold line, bresenham_line.
  destruct (_ =? _); [by intros [= <- _]|].
  destruct (_ >? _);
    (destruct (bresenham_line_loop plot _ _ _ _ _ _ _ _ _ _ _) as [g1|] eqn:E;
       simpl; [intros [= <- _]|done];
     eapply (bresenham_line_loop_keeps plot (same_frame g)), E;
       [apply plot_keeps_frame|apply plot_same_frame]).
Qed.

Lemma circle_same_frame fuel g args g' out :
  circle fuel g args = Some (g', out) → same_frame g g'.
Proof.
  unfold circle, bresenham_circle.
  destruct (_ =? _); [by intros [= <- _]|].
  destruct (bresenham_circle_loop plot _ _ _ _ _ _ _) as [g1|] eqn:E;
    simpl; [intros [= <- _]|done].
  eapply (bresenham_circle_loop_keeps plot (same_frame g)), E.
  - apply plot_keeps_frame.
  - apply plot8_keeps; [apply plot_keeps_frame|done].
Qed.

Section RectangleFacts.

Context {St : Type}.
Variable initialized_of : St → Z.
Variable call_line : St → Args → option (St * string).

Lemma and_then_Some (r : option (St * string)) k s' out :
  and_then r k = Some (s', out) →
  ∃ s1 out1 out2,
    r = Some (s1, out1) ∧ k s1 = Some (s', out2) ∧ out = out1 +:+ out2.
Proof.
  unfold and_then. destruct r as [[s1 out1]|]; simpl; [|done].
  destruct (k s1) as [[s2 out2]|] eqn:E; simpl; [|done].
  intros [= <- <-]. by exists s1, out1, out2.
Qed.

(** A run of [rectangle] that passes the test and returns is four calls
    of [line] that return, each on the canvas the one before left. *)
Lemma rectangle_over_Some s x1 y1 x2 y2 s' out :
  initialized_of s ≠ 0 →
  rectangle_over initialized_of call_line s (mkArgs x1 y1 x2 y2)
  = Some (s', out) →
  ∃ s1 s2 s3 o1 o2 o3 o4,
    call_line s (mkArgs x1 y1 (add x1 (abs (sub x2 x1))) y1) = Some (s1, o1) ∧
    call_line s1 (mkArgs (add x1 (abs (sub x2 x1))) y1 x2 y2) = Some (s2, o2) ∧
    call_line s2 (mkArgs x2 y2 x1 (add y1 (abs (sub y2 y1)))) = Some (s3, o3) ∧
    call_line s3 (mkArgs x1 (add y1 (abs (sub y2 y1))) x1 y1) = Some (s', o4) ∧
    out = o1 +:+ o2 +:+ o3 +:+ o4.
Proof.
  intros Hinit. unfold rectangle_over. simpl.
  destruct (Z.eqb_spec (initialized_of s) 0) as [|_]; [done|].
  intros H.
  apply and_then_Some in H as (s1 & o1 & ? & H1 & H & ->).
  apply and_then_Some in H as (s2 & o2 & ? & H2 & H & ->).
  apply and_then_Some in H as (s3 & o3 & o4 & H3 & H4 & ->).
  by exists s1, s2, s3, o1, o2, o3, o4.
Qed.

(** And four calls that return, each on the canvas the one before left,
    are a run of [rectangle]. *)
Lemma rectangle_over_runs s x1 y1 x2 y2 s1 s2 s3 s' o1 o2 o3 o4 :
  initialized_of s ≠ 0 →
  call_line s (mkArgs x1 y1 (add x1 (abs (sub x2 x1))) y1) = Some (s1, o1) →
  call_line s1 (mkArgs (add x1 (abs (sub x2 x1))) y1 x2 y2) = Some (s2, o2) →
  call_line s2 (mkArgs x2 y2 x1 (add y1 (abs (sub y2 y1)))) = Some (s3, o3) →
  call_line s3 (mkArgs x1 (add y1 (abs (sub y2 y1))) x1 y1) = Some (s', o4) →
  rectangle_over initialized_of call_line s (mkArgs x1 y1 x2 y2)
  = Some (s', o1 +:+ o2 +:+ o3 +:+ o4).
Proof.
  intros Hinit H1 H2 H3 H4. unfold rectangle_over, and_then.
  cbn [arg0 arg1 arg2 arg3].
  destruct (Z.eqb_spec (initialized_of s) 0) as [|_]; [done|].
  rewrite H1. cbn [mbind option_bind]. rewrite H2. cbn [mbind option_bind].
  rewrite H3. cbn [mbind option_bind]. by rewrite H4.
Qed.

End RectangleFacts.

(** [rectangle] returns exactly when its four calls of [line] return, each
    on the canvas the one before left, with the canvas of the last and the
    text of the four. *)
Lemma rectangle_runs fuel g x1 y1 x2 y2 g' out :
  grid_initialized g ≠ 0 →
  rectangle fuel g (mkArgs x1 y1 x2 y2) = Some (g', out) ↔
  ∃ g1 g2 g3 o1 o2 o3 o4,
    line fuel g (mkArgs x1 y1 (add x1 (abs (sub x2 x1))) y1) = Some (g1, o1) ∧
    line fuel g1 (mkArgs (add x1 (abs (sub x2 x1))) y1 x2 y2) = Some (g2, o2) ∧
    line fuel g2 (mkArgs x2 y2 x1 (add y1 (abs (sub y2 y1)))) = Some (g3, o3) ∧
    line fuel g3 (mkArgs x1 (add y1 (abs (sub y2 y1))) x1 y1) = Some (g', o4) ∧
    out = o1 +:+ o2 +:+ o3 +:+ o4.
Proof.
  intros Hinit. unfold rectangle. split.
  - by apply rectangle_over_Some.
  - intros (g1 & g2 & g3 & o1 & o2 & o3 & o4 & H1 & H2 & H3 & H4 & ->).
    by apply (rectangle_over_runs _ _ _ _ _ _ _ g1 g2 g3).
Qed.

Lemma logged_line_Some fuel g log args s' out :
  logged_line fuel (g, log) args = Some (s', out) ↔
  line fuel g args = Some (s'.1, out) ∧ s'.2 = log ++ [(g, args)].
Proof.
  unfold logged_line. cbn [fst snd].
  destruct (line fuel g args) as [[g1 o]|]; destruct s' as [g' log']; cbn.
  - split; [by intros [= <- <- <-]|]. by intros [[= -> ->] ->].
  - split; [done|]. by intros [? _].
Qed.

(** The calls of [line] recorded in a run of [rectangle] that returns:
    these four, in this order, each on the canvas the one before
    returned. *)
Lemma rectangle_calls_lines fuel g x1 y1 x2 y2 calls :
  grid_initialized g ≠ 0 →
  rectangle_calls fuel g (mkArgs x1 y1 x2 y2) = Some calls ↔
  ∃ g1 g2 g3 g' o1 o2 o3 o4,
    line fuel g (mkArgs x1 y1 (add x1 (abs (sub x2 x1))) y1) = Some (g1, o1) ∧
    line fuel g1 (mkArgs (add x1 (abs (sub x2 x1))) y1 x2 y2) = Some (g2, o2) ∧
    line fuel g2 (mkArgs x2 y2 x1 (add y1 (abs (sub y2 y1)))) = Some (g3, o3) ∧
    line fuel g3 (mkArgs x1 (add y1 (abs (sub y2 y1))) x1 y1) = Some (g', o4) ∧
    calls = [ (g, mkArgs x1 y1 (add x1 (abs (sub x2 x1))) y1);
              (g1, mkArgs (add x1 (abs (sub x2 x1))) y1 x2 y2);
              (g2, mkArgs x2 y2 x1 (add y1 (abs (sub y2 y1))));
              (g3, mkArgs x1 (add y1 (abs (sub y2 y1))) x1 y1) ].
Proof.
  intros Hinit. unfold rectangle_calls. split.
  - destruct (rectangle_over _ _ _ _) as [[[g' log] out]|] eqn:Hrun; [|done].
    cbn. intros [= <-].
    apply rectangle_over_Some in Hrun
      as ([g1 l1] & [g2 l2] & [g3 l3] & o1 & o2 & o3 & o4
          & H1 & H2 & H3 & H4 & _); [|done].
    apply logged_line_Some in H1 as [H1 E1], H2 as [H2 E2],
      H3 as [H3 E3], H4 as [H4 E4].
    cbn [fst snd] in *. subst.
    by exists g1, g2, g3, g', o1, o2, o3, o4.
  - intros (g1 & g2 & g3 & g' & o1 & o2 & o3 & o4 & H1 & H2 & H3 & H4 & ->).
    set (c1 := (g, mkArgs x1 y1 (add x1 (abs (sub x2 x1))) y1)).
    set (c2 := (g1, mkArgs (add x1 (abs (sub x2 x1))) y1 x2 y2)).
    set (c3 := (g2, mkArgs x2 y2 x1 (add y1 (abs (sub y2 y1))))).
    set (c4 := (g3, mkArgs x1 (add y1 (abs (sub y2 y1))) x1 y1)).
    rewrite (rectangle_over_runs _ _ (g, []) x1 y1 x2 y2
               (g1, [c1]) (g2, [c1; c2]) (g3, [c1; c2; c3])
               (g', [c1; c2; c3; c4]) o1 o2 o3 o4);
      [done|done|by apply logged_line_Some..].
Qed.


Lemma rectangle_same_frame fuel g args g' out :
  rectangle fuel g args = Some (g', out) → same_frame g g'.
Proof.
  unfold rectangle, rectangle_over.
  destruct (_ =? _); [by intros [= <- _]|].
  intros H.
  apply and_then_Some in H as (g1 & ? & ? & H1 & H & _).
  apply and_then_Some in H as (g2 & ? & ? & H2 & H & _).
  apply and_then_Some in H as (g3 & ? & ? & H3 & H4 & _).
  apply line_same_frame in H1, H2, H3, H4.
  eauto using same_frame_trans.
Qed.

(** Before [GRID], [rectangle] makes no call of [line]. *)
Lemma rectangle_calls_uninitialized fuel g args :
  grid_initialized g = 0 → rectangle_calls fuel g args = Some [].
Proof.
  intros H. unfold rectangle_calls, rectangle_over. cbn [fst].
  by rewrite H.
Qed.

(** C10.  [POINT], [LINE], [CIRCLE] and [RECTANGLE], on any canvas and
    with any arguments, leave the width, the height, the draw character
    and the initialized flag as they were. *)
Theorem drawing_keeps_frame (g : Grid) (args : Args) :
  same_frame g (point g args).1 ∧
  (∀ fuel g' out, line fuel g args = Some (g', out) → same_frame g g') ∧
  (∀ fuel g' out, circle fuel g args = Some (g', out) → same_frame g g') ∧
  (∀ fuel g' out, rectangle fuel g args = Some (g', out) → same_frame g g').
Proof.
  split_and!.
  - apply point_same_frame.
  - intros fuel g' out. apply line_same_frame.
  - intros fuel g' out. apply circle_same_frame.
  - intros fuel g' out. apply rectangle_same_frame.
Qed.

(** ** The circle rasterizer *)

Lemma mod_add_cancel c x a :
  (c + x) mod 2 ^ 32 = (c + a) mod 2 ^ 32 → x mod 2 ^ 32 = a mod 2 ^ 32.
Proof.
  intros H. Z.div_mod_to_equations. lia.
Qed.

(** Two offsets that give the same coordinate from one center give the
    same coordinate from every center, added or subtracted. *)
Lemma same_offset c x a :
  add c x = add c a → ∀ c', add c' x = add c' a ∧ sub c' x = sub c' a.
Proof.
  intros H%wrap_inv%mod_add_cancel c'. unfold add, sub. split; apply wrap_congr.
  - by rewrite (Z.add_mod c' x), H, <- Z.add_mod by lia.
  - by rewrite (Zminus_mod c' x), H, <- Zminus_mod.
Qed.

Lemma opposite_offset c x a :
  add c x = sub c a → ∀ c', add c' x = sub c' a ∧ sub c' x = add c' a.
Proof.
  unfold add, sub. intros H%wrap_inv c'.
  replace (c - a) with (c + - a) in H by lia. apply mod_add_cancel in H.
  split; apply wrap_congr.
  - replace (c' - a) with (c' + - a) by lia.
    by rewrite (Z.add_mod c' x), H, <- Z.add_mod by lia.
  - replace (c' + a) with (c' - - a) by lia.
    by rewrite (Zminus_mod c' x), H, <- Zminus_mod.
Qed.

Lemma plot8_record tr xc yc x y :
  plot8 record_plot tr xc yc x y = tr ++ reflections xc yc x y.
Proof. unfold plot8, record_plot, reflections. by rewrite <- !app_assoc. Qed.

Lemma in_rounds_nil xc yc : in_rounds xc yc [].
Proof. intros p Hp. by apply elem_of_nil in Hp. Qed.

Lemma in_rounds_round xc yc tr x y :
  in_rounds xc yc tr → in_rounds xc yc (tr ++ reflections xc yc x y).
Proof.
  intros Htr p [Hp|Hp]%elem_of_app.
  - destruct (Htr p Hp) as (a & b & Hab & Hall). exists a, b. split; [done|].
    intros q Hq. apply elem_of_app. left. by apply Hall.
  - exists x, y. split; [done|].
    intros q Hq. apply elem_of_app. by right.
Qed.

Lemma bresenham_circle_loop_rounds fuel :
  ∀ tr xc yc x y d tr',
    in_rounds xc yc tr →
    bresenham_circle_loop record_plot fuel tr xc yc x y d = Some tr' →
    in_rounds xc yc tr'.
Proof.
  induction fuel as [|fuel IH]; intros * Htr; simpl; [done|].
  destruct (y >=? x); [|by intros [= <-]].
  destruct (d >? 0); apply IH; rewrite plot8_record;
    by apply in_rounds_round.
Qed.

(** Rewrites every coordinate at offset [x] or [y] into one at the
    offsets of the round the position was found in. *)
Ltac offset_of H T :=
  lazymatch type of H with
  | add _ _ = add _ _ => pose proof (same_offset _ _ _ H) as T
  | add _ _ = sub _ _ => pose proof (opposite_offset _ _ _ H) as T
  end.

Ltac to_round Hx Hy :=
  let Tx := fresh "Tx" in
  let Ty := fresh "Ty" in
  offset_of Hx Tx; offset_of Hy Ty;
  repeat match goal with
         | |- context [add ?c ?v] =>
             first [ rewrite (proj1 (Tx c)) | rewrite (proj1 (Ty c)) ]
         | |- context [sub ?c ?v] =>
             first [ rewrite (proj2 (Tx c)) | rewrite (proj2 (Ty c)) ]
         end.

Lemma in_rounds_symmetric xc yc tr :
  in_rounds xc yc tr → symmetric_about xc yc tr.
Proof.
  intros Htr x y Hxy p Hp.
  destruct (Htr _ Hxy) as (a & b & Hab & Hall).
  apply Hall. clear Hall Htr Hxy. unfold reflections in *.
  rewrite !elem_of_cons, elem_of_nil in Hab.
  rewrite !elem_of_cons, elem_of_nil in Hp.
  rewrite !elem_of_cons, elem_of_nil.
  destruct Hab as [[= Hx Hy]|[[= Hx Hy]|[[= Hx Hy]|[[= Hx Hy]|
                  [[= Hx Hy]|[[= Hx Hy]|[[= Hx Hy]|[[= Hx Hy]|[]]]]]]]]];
  destruct Hp as [->|[->|[->|[->|[->|[->|[->|[->|[]]]]]]]]];
  to_round Hx Hy; auto 10.
Qed.

(** *** Termination of the circle loop *)

Section CircleLoop.

Context {St : Type} (draw : St → Z → Z → St).

(** [x] grows by one in every iteration and [y] does not grow: the loop
    returns after at most [y - x + 1] iterations. *)
Lemma bresenham_circle_loop_returns fuel :
  ∀ s xc yc x y d,
    0 <= x → int_min <= y < int_max → (Z.to_nat (y - x + 1) < fuel)%nat →
    is_Some (bresenham_circle_loop draw fuel s xc yc x y d).
Proof.
  induction fuel as [|fuel IH]; intros * Hx Hy Hfuel; simpl; [lia|].
  destruct (y >=? x) eqn:Htest; [|by eexists].
  apply Z.geb_le in Htest.
  assert (Hstep : add x 1 = x + 1).
  { apply add_small. unfold is_int, int_min, int_max in *. lia. }
  assert (Hdown : sub y 1 = y - 1).
  { apply sub_small. unfold is_int, int_min, int_max in *. lia. }
  destruct (d >? 0); rewrite Hstep, ?Hdown; apply IH;
    unfold int_min, int_max in *; lia.
Qed.

Lemma bresenham_circle_returns fuel s xc yc radius :
  is_int radius → (Z.to_nat (radius + 2) < fuel)%nat →
  is_Some (bresenham_circle draw fuel s xc yc radius).
Proof.
  intros Hr Hfuel. unfold bresenham_circle.
  destruct (decide (radius = int_max)) as [->|Hne].
  - destruct fuel as [|fuel]; [lia|].
    change (is_Some
      (bresenham_circle_loop draw fuel
         (plot8 draw (plot8 draw s xc yc 0 int_max) xc yc 1 (int_max - 1))
         xc yc 1 (int_max - 1) (add (add 5 (mul 4 (sub 1 (int_max - 1)))) 10))).
    apply bresenham_circle_loop_returns; unfold int_min, int_max in *; lia.
  - apply bresenham_circle_loop_returns;
      unfold is_int, int_min, int_max in *; lia.
Qed.

End CircleLoop.

(** C9.  For a radius [0 <= r] the circle rasterizer returns, and the
    positions it plots are closed under the eight reflections about the
    center: with the position at offsets [(x, y)] it plots the ones at
    [(±x, ±y)] and [(±y, ±x)].  The [CIRCLE] handler on an initialized
    canvas plots exactly these positions, in this order. *)
Theorem circle_symmetric (xc yc r : Z) :
  0 <= r <= int_max →
  (∃ fuel, is_Some (circle_points fuel xc yc r)) ∧
  (∀ fuel tr,
     circle_points fuel xc yc r = Some tr →
     symmetric_about xc yc tr ∧
     ∀ g a3, grid_initialized g ≠ 0 →
       circle fuel g (mkArgs xc yc r a3) = Some (replay plot g tr, ""%string)).
Proof.
  intros Hr. split.
  - exists (S (Z.to_nat (r + 2))).
    apply bresenham_circle_returns; [unfold is_int, int_min in *|]; lia.
  - intros fuel tr Htr. split.
    + apply in_rounds_symmetric.
      unfold circle_points, bresenham_circle in Htr.
      eapply bresenham_circle_loop_rounds, Htr.
      rewrite plot8_record. apply in_rounds_round, in_rounds_nil.
    + intros g a3 Hinit. rewrite circle_replay by done. simpl.
      by rewrite Htr.
Qed.

Lemma circle_symmetric_witness :
  symmetric_about 2 2
    [ (2, 3); (2, 3); (2, 1); (2, 1); (3, 2); (1, 2); (3, 2); (1, 2);
      (3, 2); (1, 2); (3, 2); (1, 2); (2, 3); (2, 3); (2, 1); (2, 1) ] ∧
  circle 10 (canvas 5 5) (mkArgs 2 2 1 0)
  = Some (replay plot (canvas 5 5)
            [ (2, 3); (2, 3); (2, 1); (2, 1); (3, 2); (1, 2); (3, 2); (1, 2);
              (3, 2); (1, 2); (3, 2); (1, 2); (2, 3); (2, 3); (2, 1); (2, 1) ],
          ""%string).
Proof.
  destruct (circle_symmetric 2 2 1) as [_ Hrun]; [unfold int_max; lia|].
  destruct (Hrun 10%nat
    [ (2, 3); (2, 3); (2, 1); (2, 1); (3, 2); (1, 2); (3, 2); (1, 2);
      (3, 2); (1, 2); (3, 2); (1, 2); (2, 3); (2, 3); (2, 1); (2, 1) ])
    as [Hsym Hcircle]; [by vm_compute|].
  split; [exact Hsym|]. apply Hcircle. by vm_compute.
Defined.

Lemma drawing_keeps_frame_witness :
  same_frame (canvas 5 5) (point (canvas 5 5) (mkArgs 1 1 0 0)).1 ∧
  same_frame (canvas 5 5)
    (replay plot (canvas 5 5) [(0, 0); (1, 0); (2, 1); (3, 1); (2, 1)]) ∧
  (∃ g', circle 10 (canvas 5 5) (mkArgs 2 2 1 0) = Some (g', ""%string) ∧
         same_frame (canvas 5 5) g') ∧
  (∃ g', rectangle 10 (canvas 5 5) (mkArgs 0 0 2 2) = Some (g', ""%string) ∧
         same_frame (canvas 5 5) g').
Proof.
  split_and!.
  - destruct (drawing_keeps_frame (canvas 5 5) (mkArgs 1 1 0 0))
      as (Hpoint & _).
    exact Hpoint.
  - destruct (drawing_keeps_frame (canvas 5 5) (mkArgs 0 0 3 1))
      as (_ & Hline & _ & _).
    apply (Hline 10%nat _ ""%string). by vm_compute.
  - destruct (drawing_keeps_frame (canvas 5 5) (mkArgs 2 2 1 0))
      as (_ & _ & Hcircle & _).
    eexists. split; [by vm_compute|].
    apply (Hcircle 10%nat _ ""%string). by vm_compute.
  - destruct (drawing_keeps_frame (canvas 5 5) (mkArgs 0 0 2 2))
      as (_ & _ & _ & Hrect).
    eexists. split; [by vm_compute|].
    apply (Hrect 10%nat _ ""%string). by vm_compute.
Defined.

(** ** The line handler *)

(** With both deltas below [INT_MAX] the handler returns. *)
Lemma line_returns fuel g args :
  let dx := abs (sub (arg2 args) (arg0 args)) in
  let dy := abs (sub (arg3 args) (arg1 args)) in
  dx < int_max → dy < int_max →
  (Z.to_nat (Z.max dx dy + 1) < fuel)%nat →
  is_Some (line fuel g args).
Proof.
  intros dx dy Hdx Hdy Hfuel. unfold line.
  destruct (_ =? _); [by eexists|]. fold dx dy.
  destruct (dx >? dy); unfold bresenham_line;
    (edestruct (bresenham_line_loop_returns plot fuel) as [g' ->];
       [| | |by eexists]; lia).
Qed.

(** The handler makes [2 + max dx dy] calls of [plot]: the start point
    and one per iteration of a loop that runs [max dx dy + 1] times. *)
Lemma line_points_calls fuel x1 y1 x2 y2 tr :
  let dx := abs (sub x2 x1) in
  let dy := abs (sub y2 y1) in
  0 <= dx < int_max → 0 <= dy < int_max →
  line_points fuel x1 y1 x2 y2 = Some tr →
  Z.of_nat (length tr) = 2 + Z.max dx dy.
Proof.
  intros dx dy Hdx Hdy. unfold line_points, bresenham_line. fold dx dy.
  destruct (Z.gtb_spec dx dy); intros Hrun;
    apply bresenham_line_loop_calls in Hrun; try lia;
    rewrite Hrun; simpl; lia.
Qed.

(** C1 fails on the code.  After [GRID 3,3], [LINE 0,0,2,1] plots four
    distinct positions, all inside the canvas, where the claim counts
    [1 + max(|2-0|, |1-0|) = 3]: the loop of [bresenham_line] runs for
    [i = 0 .. dx], one iteration more than the distance, and its last
    iteration steps back from the end point to [(1, 0)]. *)
Theorem line_plots_past_end :
  line_points 10 0 0 2 1 = Some [(0, 0); (1, 1); (2, 1); (1, 0)] ∧
  line 10 (canvas 3 3) (mkArgs 0 0 2 1)
  = Some (replay plot (canvas 3 3) [(0, 0); (1, 1); (2, 1); (1, 0)],
          ""%string) ∧
  dom (drawn (replay plot (canvas 3 3) [(0, 0); (1, 1); (2, 1); (1, 0)]))
  = {[ (0, 0); (1, 1); (2, 1); (1, 0) ]} ∧
  length (remove_dups [(0, 0); (1, 1); (2, 1); (1, 0)]) = 4%nat ∧
  1 + Z.max (Z.abs (2 - 0)) (Z.abs (1 - 0)) = 3.
Proof. split_and!; by vm_compute. Qed.

(** The same loop on a line of one point: [LINE 1,1,1,1] plots [(1, 1)]
    and [(0, 0)]. *)
Lemma line_of_one_point :
  line_points 10 1 1 1 1 = Some [(1, 1); (0, 0)].
Proof. by vm_compute. Qed.

(** ** Commands before [GRID] *)

(** The handlers that test [initialized] print the error line and return
    the canvas as it was. *)
Lemma uninitialized_reports fuel g args :
  grid_initialized g = 0 →
  point g args = (g, "error: Grid isn't initialized" +:+ nl) ∧
  line fuel g args = Some (g, "error: Grid isn't initialized" +:+ nl) ∧
  circle fuel g args = Some (g, "error: Grid isn't initialized" +:+ nl) ∧
  rectangle fuel g args = Some (g, "error: Grid isn't initialized" +:+ nl) ∧
  display g = "error: Grid isn't initialized" +:+ nl.
Proof.
  intros H. unfold point, line, circle, rectangle, rectangle_over, display.
  by rewrite H.
Qed.

(** [clear] has no such test and no [printf]: whatever the canvas,
    [CLEAR] prints nothing. *)
Lemma clear_prints_nothing fuel i :
  op_cmd (interp_op i) = CLEAR →
  ∃ i', eval fuel i = Some (Returned i' ""%string).
Proof. intros H. unfold eval. rewrite H. by eexists. Qed.

(** C2 fails on the code for [CLEAR].  As the first command of a session
    [CLEAR] returns with the canvas as it was, still not initialized, and
    with nothing printed, where the claim has the line "error: Grid isn't
    initialized"; [POINT] in the same state prints it. *)
Theorem clear_before_grid_is_silent :
  eval 0 (mkInterpreter initial_grid (operation_of "CLEAR" no_args))
  = Some (Returned (mkInterpreter initial_grid (operation_of "CLEAR" no_args))
            ""%string) ∧
  eval 0 (mkInterpreter initial_grid (operation_of "POINT" no_args))
  = Some (Returned (mkInterpreter initial_grid (operation_of "POINT" no_args))
            ("error: Grid isn't initialized" +:+ nl)).
Proof. split; by vm_compute. Qed.

(** ** Filling the cells: [CLEAR] *)

Lemma store_row l :
  ∀ g i c,
    let g' := foldl (fun acc j => store acc i j c) g l in
    same_frame g g' ∧ grid_rows g' = grid_rows g ∧
    ∀ k, grid_state g' !! k
         = if bool_decide (k.1 = i ∧ k.2 ∈ l ∧ is_Some (grid_rows g !! i))
           then Some c else grid_state g !! k.
Proof.
  induction l as [|a l IH] using rev_ind; intros g i c; cbv zeta.
  - split_and!; [done..|]. intros k. rewrite bool_decide_eq_false_2; [done|].
    intros (_ & H & _). by apply elem_of_nil in H.
  - rewrite foldl_app. cbn [foldl].
    pose proof (IH g i c) as IH'. cbv zeta in IH'.
    set (g1 := foldl _ g l) in *.
    destruct IH' as (Hframe & Hrows & Hcells). split_and!.
    + eapply same_frame_trans; [exact Hframe|apply store_same_frame].
    + by rewrite store_rows.
    + intros [k1 k2]. unfold store. rewrite Hrows.
      destruct (grid_rows g !! i) as [size|] eqn:Hrow; cbn [grid_state].
      * destruct (decide ((i, a) = (k1, k2))) as [[= <- <-]|Hne].
        -- rewrite lookup_insert_eq. rewrite bool_decide_eq_true_2; [done|].
           split_and!; [done| |done].
           apply elem_of_app. right. by apply list_elem_of_singleton.
        -- rewrite lookup_insert_ne by done. rewrite Hcells, ?Hrow.
           cbn [fst snd].
           apply (f_equal (fun b : bool =>
                    if b then Some c else grid_state g !! (k1, k2))).
           apply bool_decide_ext. rewrite elem_of_app, list_elem_of_singleton.
           split; [tauto|]. intros (-> & [?| ->] & ?); [done|]. by destruct Hne.
      * rewrite Hcells, ?Hrow.
        rewrite !bool_decide_eq_false_2; [done|..];
          intros (_ & _ & H); by destruct H.
Qed.

Lemma store_upto n g i c :
  let g' := for_upto n (fun j g => store g i j c) g in
  same_frame g g' ∧ grid_rows g' = grid_rows g ∧
  ∀ k, grid_state g' !! k
       = if bool_decide (k.1 = i ∧ 0 <= k.2 < n ∧ is_Some (grid_rows g !! i))
         then Some c else grid_state g !! k.
Proof.
  unfold for_upto.
  destruct (store_row (seqZ 0 n) g i c) as (Hframe & Hrows & Hcells).
  split_and!; [exact Hframe|exact Hrows|]. intros k. rewrite Hcells.
  apply (f_equal (fun b : bool => if b then Some c else grid_state g !! k)).
  apply bool_decide_ext. by rewrite elem_of_seqZ, Z.add_0_l.
Qed.

(** Two nested loops that write [c] to [state[i][j]] for the row indices
    of [l] and [j] below a bound read from the canvas. *)
Lemma fill_cells (n : Grid → Z) c l :
  (∀ g g', same_frame g g' → n g' = n g) →
  ∀ g,
    let g' :=
      foldl (fun acc i => for_upto (n acc) (fun j g => store g i j c) acc)
        g l in
    same_frame g g' ∧ grid_rows g' = grid_rows g ∧
    ∀ k, grid_state g' !! k
         = if bool_decide (k.1 ∈ l ∧ 0 <= k.2 < n g ∧
                           is_Some (grid_rows g !! k.1))
           then Some c else grid_state g !! k.
Proof.
  intros Hn.
  induction l as [|a l IH] using rev_ind; intros g; cbv zeta.
  - split_and!; [done..|]. intros k. rewrite bool_decide_eq_false_2; [done|].
    intros [H _]. by apply elem_of_nil in H.
  - rewrite foldl_app. cbn [foldl].
    destruct (IH g) as (Hframe & Hrows & Hcells).
    match goal with
    | |- context [for_upto ?n ?body ?acc] =>
        destruct (store_upto n acc a c) as (Hframe' & Hrows' & Hcells')
    end.
    split_and!; [by eapply same_frame_trans|by rewrite Hrows'|].
    intros [k1 k2]. rewrite Hcells', Hcells, Hrows. cbn [fst snd].
    rewrite (Hn _ _ Hframe).
    destruct (decide (k1 = a)) as [->|Hne];
      repeat case_bool_decide; try done; exfalso;
      rewrite ?elem_of_app, ?list_elem_of_singleton in *;
      intuition congruence.
Qed.

(** What [clear] writes: the locations [state[i][j]] with [i] below the
    height and [j] below the width, where the row pointer [state[i]] is
    assigned. *)
Lemma clear_cells g :
  same_frame g (clear g) ∧ grid_rows (clear g) = grid_rows g ∧
  ∀ i j, grid_state (clear g) !! (i, j)
         = if bool_decide (0 <= i < grid_height g ∧ 0 <= j < grid_width g ∧
                           is_Some (grid_rows g !! i))
           then Some " "%char else grid_state g !! (i, j).
Proof.
  unfold clear, for_upto at 1.
  destruct (fill_cells grid_width " "%char (seqZ 0 (grid_height g))
              (fun _ _ H => proj1 H) g) as (Hframe & Hrows & Hcells).
  split_and!; [exact Hframe|exact Hrows|]. intros i j. rewrite Hcells.
  cbn [fst snd].
  apply (f_equal (fun b : bool =>
           if b then Some " "%char else grid_state g !! (i, j))).
  apply bool_decide_ext. by rewrite elem_of_seqZ, Z.add_0_l.
Qed.

(** On a square canvas whose rows below the height are assigned these are
    the cells [plot] can write. *)
Lemma clear_square g x y :
  grid_width g = grid_height g →
  (∀ i, 0 <= i < grid_height g → is_Some (grid_rows g !! i)) →
  in_bounds g x y = true →
  grid_state (clear g) !! (x, y) = Some " "%char.
Proof.
  intros Hsq Hrows Hin%in_bounds_spec. destruct (clear_cells g) as (_ & _ & ->).
  rewrite bool_decide_eq_true_2; [done|].
  split_and!; [lia..|]. apply Hrows. lia.
Qed.

(** ** The storage [grid] allocates *)

Lemma worst_inside a : worst a Inside = a.
Proof. by destruct a. Qed.

Lemma within_inside k size : 0 <= k < size → within k size = Inside.
Proof.
  intros H. unfold within.
  destruct (Z.leb_spec 0 k), (Z.ltb_spec k size); (done || lia).
Qed.

(** The first loop of [grid] assigns the row pointers of its indices, each
    with a block of [size] bytes, and writes no cell; inside the table it
    leaves the access status as it was. *)
Lemma set_rows l :
  ∀ g size,
    let g' := foldl (fun acc i => set_row acc i size) g l in
    grid_state g' = grid_state g ∧ grid_table g' = grid_table g ∧
    (∀ i, grid_rows g' !! i
          = if bool_decide (i ∈ l) then Some size else grid_rows g !! i) ∧
    ((∀ i, i ∈ l → 0 <= i < grid_table g) → grid_access g' = grid_access g).
Proof.
  induction l as [|a l IH] using rev_ind; intros g size; cbv zeta.
  - split_and!; [done..| |done]. intros i.
    rewrite bool_decide_eq_false_2; [done|]. by intros H%elem_of_nil.
  - rewrite foldl_app. cbn [foldl].
    pose proof (IH g size) as IH'. cbv zeta in IH'.
    set (g1 := foldl _ g l) in *.
    destruct IH' as (Hstate & Htable & Hrows & Haccess).
    unfold set_row. cbn [grid_state grid_table grid_rows grid_access].
    split_and!; [done..| |].
    + intros i. destruct (decide (i = a)) as [->|Hne].
      * rewrite lookup_insert_eq. rewrite bool_decide_eq_true_2; [done|].
        apply elem_of_app. right. by apply list_elem_of_singleton.
      * rewrite lookup_insert_ne by done. rewrite Hrows.
        apply (f_equal (fun b : bool =>
                 if b then Some size else grid_rows g !! i)).
        apply bool_decide_ext. rewrite elem_of_app, list_elem_of_singleton.
        tauto.
    + intros Hl. rewrite Htable, within_inside, worst_inside.
      * apply Haccess. intros i Hi. apply Hl, elem_of_app. by left.
      * apply Hl, elem_of_app. right. by apply list_elem_of_singleton.
Qed.

(** Writing the bytes of one row inside its block leaves the access
    status as it was. *)
Lemma store_row_inside l :
  ∀ g i c size,
    grid_rows g !! i = Some size → (∀ j, j ∈ l → 0 <= j < size) →
    grid_access (foldl (fun acc j => store acc i j c) g l) = grid_access g.
Proof.
  induction l as [|a l IH] using rev_ind; intros g i c size Hrow Hl; [done|].
  rewrite foldl_app. cbn [foldl].
  pose proof (store_row l g i c) as (_ & Hrows & _). cbv zeta in Hrows.
  pose proof (IH g i c size Hrow) as IH'.
  set (g1 := foldl _ g l) in *.
  unfold store. rewrite Hrows, Hrow. cbn [grid_access].
  rewrite within_inside, worst_inside.
  - apply IH'. intros j Hj. apply Hl, elem_of_app. by left.
  - apply Hl, elem_of_app. right. by apply list_elem_of_singleton.
Qed.

(** The second loop of [grid] assigns no row pointer; where every row of
    its indices is a block of at least [n] bytes it leaves the access
    status as it was. *)
Lemma fill_rows n c l :
  ∀ g,
    let g' :=
      foldl (fun acc i => for_upto n (fun j g => store g i j c) acc) g l in
    grid_rows g' = grid_rows g ∧
    ((∀ i, i ∈ l → ∃ size, grid_rows g !! i = Some size ∧ n <= size) →
     grid_access g' = grid_access g).
Proof.
  induction l as [|a l IH]; intros g; cbv zeta; [done|]. cbn [foldl].
  pose proof (store_upto n g a c) as (_ & Hrows & _). cbv zeta in Hrows.
  pose proof (IH (for_upto n (fun j g => store g a j c) g)) as IH'.
  cbv zeta in IH'. destruct IH' as (Hrows' & Haccess'). split.
  - by rewrite Hrows', Hrows.
  - intros Hl. rewrite Haccess'.
    + destruct (Hl a) as (size & Hrow & Hsize); [by left|].
      unfold for_upto. apply (store_row_inside _ _ _ _ size Hrow).
      intros j Hj%elem_of_seqZ. lia.
    + intros i Hi. rewrite Hrows. apply Hl. by right.
Qed.

(** After [GRID w,h] the row pointers [state[0] .. state[h-1]] are
    assigned, each with a block of [h] bytes, and no other. *)
Lemma grid_rows_assigned g w h a2 a3 i :
  grid_initialized g = 0 →
  grid_rows (grid g (mkArgs w h a2 a3)).1 !! i
  = if bool_decide (0 <= i < h) then Some h else None.
Proof.
  intros Hinit. unfold grid. rewrite Hinit.
  cbn [negb Z.eqb fst arg0 arg1 grid_rows].
  unfold for_upto at 1.
  destruct (fill_rows w " "%char (seqZ 0 h)
              (for_upto h (fun i g => set_row g i h)
                 {| grid_table := w; grid_rows := ∅; grid_state := ∅;
                    grid_character := grid_character g;
                    grid_width := grid_width g;
                    grid_height := grid_height g;
                    grid_initialized := 0;
                    grid_access := grid_access g |})) as (-> & _).
  unfold for_upto.
  match goal with
  | |- grid_rows (foldl _ ?g0 _) !! _ = _ =>
      destruct (set_rows (seqZ 0 h) g0 h) as (_ & _ & -> & _)
  end.
  cbn [grid_rows]. rewrite lookup_empty.
  apply (f_equal (fun b : bool => if b then Some h else None)).
  apply bool_decide_ext. rewrite elem_of_seqZ. lia.
Qed.

(** After [GRID w,h] the locations [state[i][j]] with [i] below [h] and
    [j] below [w] hold a space, and no other location has been written:
    these are the locations [display] reads. *)
Lemma grid_cells g w h a2 a3 i j :
  grid_initialized g = 0 →
  grid_state (grid g (mkArgs w h a2 a3)).1 !! (i, j)
  = if bool_decide (0 <= i < h ∧ 0 <= j < w) then Some " "%char else None.
Proof.
  intros Hinit. unfold grid. rewrite Hinit.
  cbn [negb Z.eqb fst arg0 arg1 grid_state].
  unfold for_upto at 1.
  match goal with
  | |- grid_state (foldl _ (for_upto _ _ ?g0) _) !! _ = _ =>
      destruct (set_rows (seqZ 0 h) g0 h) as (Hstate & _ & Hrows & _);
      destruct (fill_cells (fun _ => w) " "%char (seqZ 0 h)
                  (fun _ _ _ => eq_refl)
                  (for_upto h (fun i g => set_row g i h) g0))
        as (_ & _ & Hcells)
  end.
  cbv beta in Hcells. rewrite Hcells. cbn [fst snd].
  unfold for_upto. rewrite Hstate, Hrows. cbn [grid_state].
  rewrite lookup_empty.
  destruct (decide (0 <= i < h)) as [Hi|Hi].
  - rewrite (bool_decide_eq_true_2 (i ∈ seqZ 0 h))
      by (apply elem_of_seqZ; lia).
    apply (f_equal (fun b : bool => if b then Some " "%char else None)).
    apply bool_decide_ext. rewrite elem_of_seqZ. split; [lia|].
    intros [? ?]. split_and!; [lia..|done].
  - rewrite (bool_decide_eq_false_2 (0 <= i < h ∧ 0 <= j < w)) by lia.
    rewrite bool_decide_eq_false_2; [done|].
    intros [Hin%elem_of_seqZ _]. lia.
Qed.

Lemma grid_frame g w h a2 a3 :
  grid_initialized g = 0 →
  grid_width (grid g (mkArgs w h a2 a3)).1 = w ∧
  grid_height (grid g (mkArgs w h a2 a3)).1 = h.
Proof. intros Hinit. unfold grid. by rewrite Hinit. Qed.

(** A square canvas is created inside the blocks [grid] allocates. *)
Lemma grid_square_inside g w a2 a3 :
  grid_initialized g = 0 →
  grid_access (grid g (mkArgs w w a2 a3)).1 = grid_access g.
Proof.
  intros Hinit. unfold grid. rewrite Hinit.
  cbn [negb Z.eqb fst arg0 arg1 grid_access].
  unfold for_upto at 1.
  match goal with
  | |- grid_access (foldl _ (for_upto _ _ ?g0) _) = _ =>
      destruct (set_rows (seqZ 0 w) g0 w) as (_ & _ & Hrows & Haccess);
      destruct (fill_rows w " "%char (seqZ 0 w)
                  (for_upto w (fun i g => set_row g i w) g0)) as (_ & ->)
  end.
  - unfold for_upto. rewrite Haccess; [done|].
    intros i Hi%elem_of_seqZ. cbn [grid_table]. lia.
  - intros i Hi. exists w. split; [|lia].
    unfold for_upto. rewrite Hrows. by rewrite bool_decide_eq_true_2.
Qed.

(** On the canvas [GRID w,h] creates, [plot] at a position inside the
    bounds whose first index is below the height writes the draw character
    there, changes no other cell and stays inside the row. *)
Lemma plot_on_rows g w h a2 a3 x y :
  grid_initialized g = 0 → 0 <= x < w → x < h → 0 <= y < h →
  let g' := (grid g (mkArgs w h a2 a3)).1 in
  grid_state (plot g' x y) !! (x, y) = Some (grid_character g') ∧
  (∀ i j, (i, j) ≠ (x, y) →
     grid_state (plot g' x y) !! (i, j) = grid_state g' !! (i, j)) ∧
  grid_access (plot g' x y) = grid_access g'.
Proof.
  intros Hinit Hx Hxh Hy g'.
  destruct (grid_frame g w h a2 a3 Hinit) as [Hw Hh].
  assert (Hin : in_bounds g' x y = true).
  { apply in_bounds_spec. subst g'. rewrite Hw, Hh. lia. }
  assert (Hrow : grid_rows g' !! x = Some h).
  { subst g'. rewrite grid_rows_assigned by done.
    rewrite bool_decide_eq_true_2; [done|lia]. }
  destruct (plot_with_row g' x y h Hin Hrow) as (H1 & H2 & H3).
  split_and!; [done..|]. rewrite H3, within_inside, worst_inside; [done|lia].
Qed.

(** On the same canvas, [plot] at a position inside the bounds whose first
    index is not below the height goes through a row pointer that [grid]
    left unassigned: no cell is written. *)
Lemma plot_past_rows g w h a2 a3 x y :
  grid_initialized g = 0 → h <= x < w → 0 <= y < h →
  let g' := (grid g (mkArgs w h a2 a3)).1 in
  in_bounds g' x y = true ∧
  grid_state (plot g' x y) = grid_state g' ∧
  grid_access (plot g' x y) = Wild.
Proof.
  intros Hinit Hx Hy g'.
  destruct (grid_frame g w h a2 a3 Hinit) as [Hw Hh].
  assert (Hin : in_bounds g' x y = true).
  { apply in_bounds_spec. subst g'. rewrite Hw, Hh. lia. }
  assert (Hrow : grid_rows g' !! x = None).
  { subst g'. rewrite grid_rows_assigned by done.
    rewrite bool_decide_eq_false_2; [done|lia]. }
  split; [done|]. by apply plot_no_row.
Qed.

(** C4 fails on the code.  [GRID 5,2] assigns the row pointers [state[0]]
    and [state[1]] of a table of five.  [POINT 3,0] is inside the bounds
    ([0 <= 3 < 5], [0 <= 0 < 2]), so [plot] writes through [state[3]], a
    pointer that was never assigned: the draw character does not reach
    cell [(3, 0)], where the claim has it written there.  At [(1, 0)], a
    position whose first index is below the height, it is written, and at
    [(5, 0)], outside the bounds, the canvas is returned as it was. *)
Theorem plot_without_row :
  let g := canvas 5 2 in
  grid_initialized g = 1 ∧ grid_width g = 5 ∧ grid_height g = 2 ∧
  dom (grid_rows g) = {[ 0; 1 ]} ∧
  in_bounds g 3 0 = true ∧
  point g (mkArgs 3 0 0 0) = (plot g 3 0, ""%string) ∧
  grid_access (plot g 3 0) = Wild ∧
  grid_state (plot g 3 0) !! (3, 0) = None ∧
  grid_state (plot g 3 0) = grid_state g ∧
  grid_state (plot g 1 0) !! (1, 0) = Some "*"%char ∧
  plot g 5 0 = g.
Proof. split_and!; by vm_compute. Qed.

(** C6 fails on the code.  After [GRID 1,2] and [POINT 0,1] the canvas of
    width 1 and height 2 holds the draw character in its cell [(0, 1)];
    [CLEAR] leaves it there.  [clear] runs its first index up to the
    height and its second up to the width, [plot] and [in_bounds] bound
    the first by the width and the second by the height. *)
Theorem clear_misses_cells :
  let g := (point (canvas 1 2) (mkArgs 0 1 0 0)).1 in
  grid_width g = 1 ∧ grid_height g = 2 ∧
  in_bounds g 0 1 = true ∧
  grid_state g !! (0, 1) = Some "*"%char ∧
  grid_state (clear g) !! (0, 1) = Some "*"%char ∧
  dom (drawn (clear g)) = {[ (0, 1) ]}.
Proof. split_and!; by vm_compute. Qed.

(** ** The text of [DISPLAY] *)

Lemma string_app_assoc (s1 s2 s3 : string) :
  (s1 +:+ s2) +:+ s3 = s1 +:+ (s2 +:+ s3).
Proof.
  induction s1 as [|a s1 IH]; [done|].
  change (String a ((s1 +:+ s2) +:+ s3) = String a (s1 +:+ (s2 +:+ s3))).
  by rewrite IH.
Qed.

Lemma string_app_empty (s : string) : s +:+ "" = s.
Proof.
  induction s as [|a s IH]; [done|].
  change (String a (s +:+ "") = String a s). by rewrite IH.
Qed.

(** A loop that appends one piece of text per index prints the pieces in
    the order of the indices. *)
Lemma print_each (body : Z → string → string) (f : Z → string) l :
  (∀ out i, body i out = out +:+ f i) →
  ∀ s, foldl (fun acc i => body i acc) s l = s +:+ join (f <$> l).
Proof.
  intros Hbody. induction l as [|a l IH]; intros s; simpl.
  - by rewrite string_app_empty.
  - by rewrite IH, Hbody, string_app_assoc.
Qed.

(** On an initialized canvas [display] prints one row per index below the
    width, each with the cells of the indices below the height, then a
    space and one ruler digit per index below the width. *)
Lemma display_rows g :
  grid_initialized g ≠ 0 →
  display g
  = join (display_row g <$> seqZ 0 (grid_width g)) +:+ " " +:+
    join ((fun i => pretty (ruler i)) <$> seqZ 0 (grid_width g)) +:+ nl.
Proof.
  intros Hinit. unfold display.
  destruct (Z.eqb_spec (grid_initialized g) 0) as [|_]; [done|].
  unfold for_upto.
  rewrite (print_each _ (fun i => pretty (ruler i))) by done.
  rewrite (print_each _ (display_row g)).
  - by rewrite !string_app_assoc.
  - intros out i. unfold display_row.
    rewrite (print_each _ (fun j => String (fetch g j i) EmptyString)) by done.
    by rewrite !string_app_assoc.
Qed.

Lemma display_row_count g :
  length (display_row g <$> seqZ 0 (grid_width g)) = Z.to_nat (grid_width g).
Proof. by rewrite length_fmap, length_seqZ. Qed.

(** The ruler digit of a row index is [(9 - i) mod 10]. *)
Lemma ruler_digit i : 0 <= i <= int_max → ruler i = (9 - i) mod 10.
Proof.
  intros Hi. unfold ruler, rem.
  rewrite sub_small by (unfold is_int, int_min, int_max in *; lia).
  assert (Hr : -10 < Z.rem (9 - i) 10 < 10).
  { pose proof (Z.rem_bound_abs (9 - i) 10). lia. }
  rewrite add_small by (unfold is_int, int_min, int_max in *; lia).
  Z.to_euclidean_division_equations. lia.
Qed.

(** C3 fails on the code.  On the canvas of width 2 and height 1 that
    [GRID 2,1] creates, [display] prints two rows of one cell each and
    then the ruler line, where the claim has one row (the height) of two
    cells (the width): the loops of [display] bound the row index by the
    width and the cell index by the height. *)
Theorem display_rows_by_width :
  grid_width (canvas 2 1) = 2 ∧ grid_height (canvas 2 1) = 1 ∧
  grid_initialized (canvas 2 1) = 1 ∧
  display (canvas 2 1)
  = "9  " +:+ nl +:+ "8  " +:+ nl +:+ " 98" +:+ nl.
Proof. split_and!; by vm_compute. Qed.

(** ** The drawing handlers return *)

Lemma abs_sub_small a b :
  Z.abs (a - b) < int_max → abs (sub a b) = Z.abs (a - b).
Proof.
  intros H. rewrite sub_small, abs_small;
    unfold is_int, int_min, int_max in *; lia.
Qed.

Lemma circle_returns g args :
  is_int (arg2 args) → ∃ fuel, is_Some (circle fuel g args).
Proof.
  intros Hr. exists (S (Z.to_nat (arg2 args + 2))). unfold circle.
  destruct (_ =? _); [by eexists|].
  edestruct (bresenham_circle_returns plot) as [g' ->];
    [exact Hr| |by eexists]. lia.
Qed.

Lemma and_then_is_Some {St} (r : option (St * string)) k :
  is_Some r → (∀ g, is_Some (k g)) → is_Some (and_then r k).
Proof.
  intros [[g out] ->] Hk. unfold and_then. simpl.
  destruct (Hk g) as [[g' out'] ->]. by eexists.
Qed.

(** With the corners within [2^28] of the origin no sum or difference of
    [rectangle] leaves the range of [int], and the four lines return. *)
Lemma rectangle_returns g x1 y1 x2 y2 :
  Z.abs x1 <= 2 ^ 28 → Z.abs y1 <= 2 ^ 28 →
  Z.abs x2 <= 2 ^ 28 → Z.abs y2 <= 2 ^ 28 →
  ∃ fuel, is_Some (rectangle fuel g (mkArgs x1 y1 x2 y2)).
Proof.
  intros Hx1 Hy1 Hx2 Hy2. exists (Z.to_nat (2 ^ 30 + 2)).
  unfold rectangle, rectangle_over. destruct (_ =? _); [by eexists|]. simpl.
  rewrite !abs_sub_small by (unfold int_max; lia).
  rewrite !add_small by (unfold is_int, int_min, int_max; lia).
  repeat (apply and_then_is_Some; [|intros ?]);
    (apply line_returns; simpl;
     rewrite !abs_sub_small by (unfold int_max; lia);
     unfold int_max; lia).
Qed.

(** C8.  On an initialized canvas [RECTANGLE] is exactly four calls of
    [line], in this order and each on the canvas the one before returned:
    from [(x1,y1)] to [(x1+|x2-x1|, y1)], from there to [(x2,y2)], from
    [(x2,y2)] to [(x1, y1+|y2-y1|)], and from there back to [(x1,y1)].
    It returns exactly when these four calls return, with the canvas of
    the last and the text of the four; the calls recorded in a run that
    returns are these four; and with the corners within [2^28] of the
    origin it returns.  The sums and absolute values are those of [int];
    where they fit an [int] they are the ones of the integers. *)
Theorem rectangle_four_lines (g : Grid) (x1 y1 x2 y2 : Z) :
  grid_initialized g ≠ 0 →
  let right := add x1 (abs (sub x2 x1)) in
  let low := add y1 (abs (sub y2 y1)) in
  (∀ fuel g' out,
     rectangle fuel g (mkArgs x1 y1 x2 y2) = Some (g', out) ↔
     ∃ g1 g2 g3 o1 o2 o3 o4,
       line fuel g (mkArgs x1 y1 right y1) = Some (g1, o1) ∧
       line fuel g1 (mkArgs right y1 x2 y2) = Some (g2, o2) ∧
       line fuel g2 (mkArgs x2 y2 x1 low) = Some (g3, o3) ∧
       line fuel g3 (mkArgs x1 low x1 y1) = Some (g', o4) ∧
       out = o1 +:+ o2 +:+ o3 +:+ o4) ∧
  (∀ fuel calls,
     rectangle_calls fuel g (mkArgs x1 y1 x2 y2) = Some calls ↔
     ∃ g1 g2 g3 g' o1 o2 o3 o4,
       line fuel g (mkArgs x1 y1 right y1) = Some (g1, o1) ∧
       line fuel g1 (mkArgs right y1 x2 y2) = Some (g2, o2) ∧
       line fuel g2 (mkArgs x2 y2 x1 low) = Some (g3, o3) ∧
       line fuel g3 (mkArgs x1 low x1 y1) = Some (g', o4) ∧
       calls = [ (g, mkArgs x1 y1 right y1); (g1, mkArgs right y1 x2 y2);
                 (g2, mkArgs x2 y2 x1 low); (g3, mkArgs x1 low x1 y1) ]) ∧
  (Z.abs x1 <= 2 ^ 28 → Z.abs y1 <= 2 ^ 28 →
   Z.abs x2 <= 2 ^ 28 → Z.abs y2 <= 2 ^ 28 →
     ∃ fuel calls,
       rectangle_calls fuel g (mkArgs x1 y1 x2 y2) = Some calls ∧
       calls.*2 = [ mkArgs x1 y1 (x1 + Z.abs (x2 - x1)) y1;
                    mkArgs (x1 + Z.abs (x2 - x1)) y1 x2 y2;
                    mkArgs x2 y2 x1 (y1 + Z.abs (y2 - y1));
                    mkArgs x1 (y1 + Z.abs (y2 - y1)) x1 y1 ]) ∧
  (is_int (Z.abs (x2 - x1)) → is_int (x1 + Z.abs (x2 - x1)) →
     right = x1 + Z.abs (x2 - x1)) ∧
  (is_int (Z.abs (y2 - y1)) → is_int (y1 + Z.abs (y2 - y1)) →
     low = y1 + Z.abs (y2 - y1)).
Proof.
  intros Hinit right low.
  assert (Hright : is_int (Z.abs (x2 - x1)) → is_int (x1 + Z.abs (x2 - x1)) →
                   right = x1 + Z.abs (x2 - x1)).
  { intros Habs Hsum. subst right.
    rewrite sub_small by (unfold is_int, int_min, int_max in *; lia).
    by rewrite abs_small, add_small. }
  assert (Hlow : is_int (Z.abs (y2 - y1)) → is_int (y1 + Z.abs (y2 - y1)) →
                 low = y1 + Z.abs (y2 - y1)).
  { intros Habs Hsum. subst low.
    rewrite sub_small by (unfold is_int, int_min, int_max in *; lia).
    by rewrite abs_small, add_small. }
  split_and!; [| | |exact Hright|exact Hlow].
  - intros fuel g' out. by apply rectangle_runs.
  - intros fuel calls. by apply rectangle_calls_lines.
  - intros Hx1 Hy1 Hx2 Hy2.
    destruct (rectangle_returns g x1 y1 x2 y2 Hx1 Hy1 Hx2 Hy2)
      as (fuel & [g' out] & Hrun).
    apply rectangle_runs in Hrun
      as (g1 & g2 & g3 & o1 & o2 & o3 & o4 & H1 & H2 & H3 & H4 & _); [|done].
    exists fuel. eexists. split.
    + apply rectangle_calls_lines; [done|].
      by exists g1, g2, g3, g', o1, o2, o3, o4.
    + cbn [fmap list_fmap snd]. fold right low.
      rewrite Hright, Hlow; [done|unfold is_int, int_min, int_max; lia..].
Qed.

Lemma rectangle_four_lines_witness :
  ∃ calls,
    rectangle_calls 10 (canvas 4 4) (mkArgs 0 1 2 3) = Some calls ∧
    calls.*2 = [ mkArgs 0 1 2 1; mkArgs 2 1 2 3;
                 mkArgs 2 3 0 3; mkArgs 0 3 0 1 ].
Proof.
  assert (Hinit : grid_initialized (canvas 4 4) ≠ 0) by (by vm_compute).
  destruct (rectangle_four_lines (canvas 4 4) 0 1 2 3 Hinit)
    as (_ & Hcalls & _).
  destruct (rectangle_calls 10 (canvas 4 4) (mkArgs 0 1 2 3))
    as [calls|] eqn:Hrun; [|by vm_compute in Hrun].
  exists calls. split; [done|].
  apply Hcalls in Hrun as (g1 & g2 & g3 & g' & o1 & o2 & o3 & o4 & _ & _ & _ & _ & ->).
  reflexivity.
Defined.

(** ** The line rasterizer on lines that fit the range of [int] *)

Section LineTrace.

Variables X1 Y1 X2 Y2 dx dy decide : Z.
Hypothesis HX1 : Z.abs X1 <= 2 ^ 27.
Hypothesis HY1 : Z.abs Y1 <= 2 ^ 27.
Hypothesis HX2 : Z.abs X2 <= 2 ^ 27.
Hypothesis HY2 : Z.abs Y2 <= 2 ^ 27.
Hypothesis Hdx : dx = Z.abs (X2 - X1).
Hypothesis Hdy : dy = Z.abs (Y2 - Y1).
Hypothesis Hdriving : dy <= dx.

Lemma record_place tr a b :
  (if decide =? 0 then record_plot tr a b else record_plot tr b a)
  = tr ++ [place decide a b].
Proof. unfold place, record_plot. by destruct (decide =? 0). Qed.

Lemma driving_place a b : driving decide (place decide a b) = a.
Proof. unfold driving, place. by destruct (decide =? 0). Qed.

(** After [dx - i] more iterations the loop has plotted one position per
    value of the driving coordinate up to the end point, the last of them
    the end point; the iteration for [i = dx] then plots once more. *)
Lemma bresenham_line_loop_shape fuel :
  ∀ tr i x y pk tr',
    line_state X1 Y1 X2 Y2 dx dy i x y pk →
    bresenham_line_loop record_plot fuel tr i x y pk X2 Y2 dx dy decide
    = Some tr' →
    ∃ mid extra,
      tr' = tr ++ mid ++ [extra] ∧
      driving decide <$> mid
      = (fun k => X1 + direction X1 X2 * k) <$> seqZ (i + 1) (dx - i) ∧
      last (place decide x y :: mid) = Some (place decide X2 Y2).
Proof.
  induction fuel as [|fuel IH]; intros * Hstate; simpl; [done|].
  destruct Hstate as (j & Hi & Hj & Hx & Hy & Herr & Hpk).
  destruct (Z.leb_spec i dx) as [_|?]; [|lia].
  rewrite !record_place.
  assert (Hi1 : add i 1 = i + 1)
    by (apply add_small; unfold is_int, int_min, int_max; lia).
  assert (H2dy : mul 2 dy = 2 * dy)
    by (apply mul_small; unfold is_int, int_min, int_max; lia).
  assert (H2dx : mul 2 dx = 2 * dx)
    by (apply mul_small; unfold is_int, int_min, int_max; lia).
  rewrite Hi1, H2dy, H2dx.
  destruct (Z.eq_dec i dx) as [Hend|Hmore].
  - (* the iteration after the end point *)
    assert (Hjdy : j = dy) by nia.
    assert (Hx2 : x = X2)
      by (unfold direction in Hx; destruct (Z.ltb_spec X1 X2); lia).
    assert (Hy2 : y = Y2)
      by (unfold direction in Hy; destruct (Z.ltb_spec Y1 Y2); lia).
    replace (dx - i) with 0 by lia. clear Hx Hy. subst x y.
    destruct fuel as [|fuel]; [by destruct (pk <? 0)|].
    destruct (pk <? 0); simpl;
      (destruct (Z.leb_spec (i + 1) dx) as [?|_]; [lia|]);
      intros [= <-]; by eexists [], _.
  - (* a step towards the end point *)
    assert (Hx' : (if x <? X2 then add x 1 else sub x 1)
                  = X1 + direction X1 X2 * (i + 1)).
    { unfold direction in *. destruct (Z.ltb_spec X1 X2);
        [rewrite (proj2 (Z.ltb_lt x X2)) by lia; rewrite add_small
        |rewrite (proj2 (Z.ltb_ge x X2)) by lia; rewrite sub_small];
        unfold is_int, int_min, int_max; lia. }
    rewrite Hx'.
    rewrite (seqZ_cons (i + 1)) by lia. rewrite fmap_cons.
    replace (Z.succ (i + 1)) with (i + 1 + 1) by lia.
    replace (Z.pred (dx - i)) with (dx - (i + 1)) by lia.
    destruct (Z.ltb_spec pk 0) as [Hneg|Hpos].
    + rewrite add_small by (unfold is_int, int_min, int_max; lia).
      intros Hrun. apply IH in Hrun as (mid & extra & -> & Hmid & Hlast).
      * eexists (_ :: mid), extra. split_and!.
        -- by rewrite <- app_assoc.
        -- by rewrite fmap_cons, driving_place, Hmid.
        -- by rewrite last_cons_cons.
      * exists j. split_and!; try done; lia.
    + assert (Hjlt : j < dy) by nia.
      assert (Hy' : (if y <? Y2 then add y 1 else sub y 1)
                    = Y1 + direction Y1 Y2 * (j + 1)).
      { unfold direction in *. destruct (Z.ltb_spec Y1 Y2);
          [rewrite (proj2 (Z.ltb_lt y Y2)) by lia; rewrite add_small
          |rewrite (proj2 (Z.ltb_ge y Y2)) by lia; rewrite sub_small];
          unfold is_int, int_min, int_max; lia. }
      rewrite Hy'.
      rewrite add_small, sub_small by (unfold is_int, int_min, int_max; lia).
      intros Hrun. apply IH in Hrun as (mid & extra & -> & Hmid & Hlast).
      * eexists (_ :: mid), extra. split_and!.
        -- by rewrite <- app_assoc.
        -- by rewrite fmap_cons, driving_place, Hmid.
        -- by rewrite last_cons_cons.
      * exists (j + 1). split_and!; try done; lia.
Qed.

Lemma direction_inj a b : Inj (=) (=) (fun k => a + direction a b * k).
Proof. intros k1 k2. unfold direction. destruct (a <? b); lia. Qed.

(** The whole run: the start point, [dx] positions that differ in the
    driving coordinate, the last of them the end point, and one more. *)
Lemma bresenham_line_shape fuel tr :
  bresenham_line record_plot fuel [place decide X1 Y1]
    X1 Y1 X2 Y2 dx dy decide = Some tr →
  ∃ mid extra,
    tr = (place decide X1 Y1 :: mid) ++ [extra] ∧
    Z.of_nat (length (place decide X1 Y1 :: mid)) = 1 + dx ∧
    NoDup (place decide X1 Y1 :: mid) ∧
    last (place decide X1 Y1 :: mid) = Some (place decide X2 Y2).
Proof.
  unfold bresenham_line. intros Hrun.
  apply bresenham_line_loop_shape in Hrun as (mid & extra & -> & Hmid & Hlast).
  - exists mid, extra. split_and!; [done| |
    |exact Hlast].
    + apply (f_equal length) in Hmid.
      rewrite !length_fmap, length_seqZ in Hmid. simpl. lia.
    + apply (NoDup_fmap_1 (driving decide)). rewrite fmap_cons, Hmid.
      rewrite driving_place.
      replace X1 with (X1 + direction X1 X2 * 0) at 1 by lia.
      replace (dx - 0) with (Z.pred (dx + 1)) by lia.
      change (0 + 1) with (Z.succ 0).
      rewrite <- (fmap_cons (fun k => X1 + direction X1 X2 * k)).
      rewrite <- seqZ_cons by lia.
      apply (@NoDup_fmap_2 _ _ _ (direction_inj X1 X2)), NoDup_seqZ.
  - exists 0. rewrite mul_small, sub_small;
      unfold is_int, int_min, int_max; split_and!; lia.
Qed.

End LineTrace.

(** For end points within [2^27] of the origin, [LINE] plots the start
    point, then [max dx dy] further positions up to the end point, all
    [1 + max dx dy] of them distinct, and then one position more. *)
Lemma line_points_shape fuel x1 y1 x2 y2 tr :
  Z.abs x1 <= 2 ^ 27 → Z.abs y1 <= 2 ^ 27 →
  Z.abs x2 <= 2 ^ 27 → Z.abs y2 <= 2 ^ 27 →
  line_points fuel x1 y1 x2 y2 = Some tr →
  ∃ mid extra,
    tr = ((x1, y1) :: mid) ++ [extra] ∧
    Z.of_nat (length ((x1, y1) :: mid))
    = 1 + Z.max (Z.abs (x2 - x1)) (Z.abs (y2 - y1)) ∧
    NoDup ((x1, y1) :: mid) ∧
    last ((x1, y1) :: mid) = Some (x2, y2).
Proof.
  intros Hx1 Hy1 Hx2 Hy2. unfold line_points.
  rewrite !abs_sub_small by (unfold int_max; lia).
  destruct (Z.gtb_spec (Z.abs (x2 - x1)) (Z.abs (y2 - y1))) as [Hgt|Hle];
    intros Hrun.
  - apply (bresenham_line_shape x1 y1 x2 y2 _ _ 0) in Hrun
      as (mid & extra & -> & Hlen & Hnd & Hlast); try done; try lia.
    exists mid, extra. split_and!; try done. simpl in Hlen |- *. lia.
  - apply (bresenham_line_shape y1 x1 y2 x2 _ _ 1) in Hrun
      as (mid & extra & -> & Hlen & Hnd & Hlast); try done; try lia.
    exists mid, extra. split_and!; try done. simpl in Hlen |- *. lia.
Qed.
